(** * The Diris A40 register simulator ([device_simulator/a40.py])

    A shallow embedding of the register catalog, the word codec, the
    holding-register data block with its periodic [_step], and the slave
    context, followed by the properties of the simulation engine.

    Conventions.
    - Python integers are [Z].  A Python [dict] is a [gmap]; a raised
      exception is [None].
    - Clock readings ([time.time()]) are exact rationals [Q]; floating-point
      rounding is outside the model.
    - [random.randint(0,100)] is an input of the tick: the oracle
      [draws : Z -> Z] gives, for each address, the integer returned to the
      update of that address, so the order in which the dict of addresses is
      iterated does not matter. *)

From Stdlib Require Import ZArith QArith Lia.
From stdpp Require Import base option list gmap.

Local Open Scope Z_scope.

(** ** Register configuration tables *)

Module Catalog.

(** [range(start, stop, step)] for a positive step. *)
Definition py_range (start stop step : Z) : list Z :=
  (λ i : nat, start + step * Z.of_nat i) <$>
    seq 0 (Z.to_nat ((stop - start + step - 1) / step)).

(** [dict((addr, width) for addr in range(first, last + 1, step))] *)
Definition table (first last step width : Z) : gmap Z Z :=
  list_to_map ((λ addr, (addr, width)) <$> py_range first (last + 1) step).

Definition _HOUR_METER : Z := 0xC550.
Definition _FREQUENCY : Z := 0xC55E.
Definition _PHASE_CURRENT_1 : Z := 0xC560.
Definition _NEUTRAL_CURRENT : Z := 0xC566.

Definition TABLE_1 : gmap Z Z := table 0xC550 0xC58C 2 2.
Definition TABLE_2 : gmap Z Z := table 0xC650 0xC681 2 2.
(** [TABLE_3.update(...)]: the entries of the argument win. *)
Definition TABLE_3 : gmap Z Z :=
  table 0xC790 0xC795 1 1 ∪ table 0xC750 0xC78E 2 2.
Definition TABLE_4 : gmap Z Z := table 0xC850 0xC871 1 1.
Definition TABLE_5 : gmap Z Z := table 0xC900 0xC907 1 1.
Definition TABLE_6 : gmap Z Z := table 0xC950 0xCA92 1 1.

Definition TABLES : list (gmap Z Z) :=
  [TABLE_1; TABLE_2; TABLE_3; TABLE_4; TABLE_5; TABLE_6].

(** The items of the [REGISTER_LIMITS] literal, in the order written. *)
Definition REGISTER_LIMITS_items : list (Z * (Z * Z)) :=
  [ (50520, (0, 50000)); (50514, (0, 50000)); (50528, (0, 20000));
    (50544, (0, 1000)); (50556, (0, 1000)); (50550, (0, 1000));
    (50562, (-1000, 1000));
    (50522, (0, 50000)); (50516, (0, 50000)); (50530, (0, 20000));
    (50546, (0, 1000)); (50558, (0, 1000)); (50552, (0, 1000));
    (50564, (-1000, 1000));
    (50524, (0, 50000)); (50518, (0, 50000)); (50532, (0, 20000));
    (50548, (0, 1000)); (50560, (0, 1000)); (50554, (0, 1000));
    (50566, (-1000, 1000));
    (50526, (3000, 7000)); (50534, (0, 20000)); (50536, (0, 1000));
    (50540, (0, 1000)); (50538, (0, 1000)); (50542, (-1000, 1000)) ].

Definition REGISTER_LIMITS : gmap Z (Z * Z) :=
  list_to_map REGISTER_LIMITS_items.

(** [ALL = {}; for t in TABLES: ALL.update(t)] *)
Definition ALL : gmap Z Z := foldl (λ all t, t ∪ all) ∅ TABLES.

Definition _ALL_REGISTERS : gmap Z Z := ALL.

(** The keys of a dict, in the (unspecified) order of iteration. *)
Definition keys {A} (d : gmap Z A) : list Z := (map_to_list d).*1.

(** [dict((k,0) for k in ALL)], then one assignment per limits entry of
    [int(sum(limits)/2)]: a division of two integers, which rounds down. *)
Definition _INITIAL_REGISTER_VALUES : gmap Z Z :=
  foldl (λ d '(addr, (lo, hi)), <[addr := (lo + hi) / 2]> d)
        ((λ _, 0) <$> ALL) REGISTER_LIMITS_items.

End Catalog.

(** ** The word codec *)

Module Codec.

(** The [struct] format characters of [_REGISTER_TYPES]. *)
Inductive format := fmt_h | fmt_i | fmt_q.

(** [struct.calcsize] of the three formats. *)
Definition calcsize (f : format) : nat :=
  match f with fmt_h => 2 | fmt_i => 4 | fmt_q => 8 end%nat.

Definition _REGISTER_TYPES (width : Z) : option format :=
  if width =? 1 then Some fmt_h
  else if width =? 2 then Some fmt_i
  else if width =? 4 then Some fmt_q
  else None.

(** The [n] low bytes of [u], most significant first. *)
Fixpoint be_bytes (n : nat) (u : Z) : list Z :=
  match n with
  | O => []
  | S k => be_bytes k (u / 256) ++ [u mod 256]
  end.

(** [struct.pack('>' + f, value)]: the two's-complement big-endian bytes of
    [value]; [struct.error] when [value] does not fit the format. *)
Definition struct_pack (f : format) (value : Z) : option (list Z) :=
  let bits := 8 * Z.of_nat (calcsize f) in
  if (- 2 ^ (bits - 1) <=? value) && (value <? 2 ^ (bits - 1))
  then Some (be_bytes (calcsize f) (value mod 2 ^ bits))
  else None.

(** [struct.unpack('>H', bs)[0]]: needs exactly two bytes. *)
Definition struct_unpack_H (bs : list Z) : option Z :=
  match bs with
  | [hi; lo] => Some (hi * 256 + lo)
  | _ => None
  end.

(** The slice [l[i:j]]. *)
Definition slice {A} (l : list A) (i j : nat) : list A := take (j - i) (drop i l).

Definition _pack_value (value width : Z) : option (list Z) :=
  value_type ← _REGISTER_TYPES width;
  byte_string ← struct_pack value_type value;
  mapM (λ i : nat, struct_unpack_H (slice byte_string (2 * i) (2 * i + 2)))
       (seq 0 (Z.to_nat width)).

(** Modelled from the spec: the repository has no decoder; [unpack] is the
    ValueCodec operation of the specification, which reads a sequence of
    16-bit words, first word most significant, as a two's-complement integer
    of [16 * length words] bits. *)
Definition unpack (words : list Z) : Z :=
  let u := foldl (λ acc w, acc * 65536 + w) 0 words in
  let bits := 16 * Z.of_nat (length words) in
  if u <? 2 ^ (bits - 1) then u else u - 2 ^ bits.

End Codec.

Import Catalog Codec.


(** ** The data blocks of the protocol library *)

Module Store.

(** [for idx, val in enumerate(values): d[address + idx] = val], with the
    running index [idx]. *)
Fixpoint enumerate_store (address idx : Z) (values : list Z) (d : gmap Z Z)
  : gmap Z Z :=
  match values with
  | [] => d
  | val :: rest => enumerate_store address (idx + 1) rest (<[address + idx := val]> d)
  end.

(** Modelled from the spec: the sparse data block that
    [A40HoldingRegistersDataBlock] extends belongs to the protocol library
    and is not among the sources.  It is the RegisterStore of the
    specification: word slots keyed by word address; [validate] is true iff
    every word address in [[address, address+count)] is backed, [getValues]
    returns the requested slots (an error when one is missing) and
    [setValues] overwrites the slots [[address, address+len(values))]
    without any check. *)
Definition sparse_validate (values : gmap Z Z) (address count : Z) : bool :=
  forallb (λ a, bool_decide (is_Some (values !! a))) (seqZ address count).

Definition sparse_getValues (values : gmap Z Z) (address count : Z)
  : option (list Z) :=
  mapM (λ a, values !! a) (seqZ address count).

Definition sparse_setValues (values : gmap Z Z) (address : Z) (new : list Z)
  : gmap Z Z :=
  enumerate_store address 0 new values.

(** Modelled from the spec: [_step] hands [setValues] the dict returned by
    [_expand_register_value] instead of a list; the library block then
    assigns every item of that dict to its own key, whatever [address] is. *)
Definition sparse_setValues_dict (values : gmap Z Z) (new : gmap Z Z)
  : gmap Z Z :=
  new ∪ values.

(** Modelled from the spec: the three fixed single-element stubs are
    sequential blocks of the protocol library, [address] being the address
    of the first element.  Only requests inside the block are modelled; the
    others are errors here. *)
Record sequential := Sequential { seq_address : Z; seq_values : list Z }.

Definition sequential_validate (b : sequential) (address count : Z) : bool :=
  (seq_address b <=? address) &&
  (address + count <=? seq_address b + Z.of_nat (length (seq_values b))).

Definition sequential_getValues (b : sequential) (address count : Z)
  : option (list Z) :=
  if (0 <=? count) && sequential_validate b address count
  then let start := Z.to_nat (address - seq_address b) in
       Some (take (Z.to_nat count) (drop start (seq_values b)))
  else None.

Definition sequential_setValues (b : sequential) (address : Z) (new : list Z)
  : option sequential :=
  if sequential_validate b address (Z.of_nat (length new))
  then let start := Z.to_nat (address - seq_address b) in
       Some (Sequential (seq_address b)
               (take start (seq_values b) ++ new ++
                drop (start + length new) (seq_values b)))
  else None.

End Store.

(** ** The simulated holding registers *)

Module Engine.

Import Store.

(** The state of an [A40HoldingRegistersDataBlock] created with
    [dynamic=True]: the word slots of the sparse block, and the two
    attributes the constructor adds. *)
Record A40HoldingRegistersDataBlock := Block {
  values : gmap Z Z;
  _last_values : gmap Z Z;
  _start_time : Q
}.

(** [_expand_register_value]: [None] stands for the failed assertion, the
    [KeyError] of an unsupported width and the [struct.error] of a value
    that does not fit. *)
Definition _expand_register_value (addr value : Z) : option (gmap Z Z) :=
  width ← _ALL_REGISTERS !! addr;
  words ← _pack_value value width;
  Some (enumerate_store addr 0 words ∅).

(** The loop of the constructor over [addrs]: each expanded dict updates
    [expanded_values]. *)
Fixpoint expand_all (values : gmap Z Z) (addrs : list Z)
    (expanded_values : gmap Z Z) : option (gmap Z Z) :=
  match addrs with
  | [] => Some expanded_values
  | addr :: rest =>
      d ← _expand_register_value addr (default 0 (values !! addr));
      expand_all values rest (d ∪ expanded_values)
  end.

(** The constructor up to [self._start_time = time.time()]: the block as it
    is before the looping call is started. *)
Definition new_block (values : gmap Z Z) (start_time : Q)
  : option A40HoldingRegistersDataBlock :=
  if bool_decide (dom values ⊆ dom _ALL_REGISTERS) then
    expanded_values ← expand_all values (keys _ALL_REGISTERS) ∅;
    Some (Block expanded_values ∅ start_time)
  else None.

(** [int(x)] of a rational: rounds towards zero. *)
Definition py_int (x : Q) : Z := Z.quot (Qnum x) (Z.pos (Qden x)).

(** [min(a, b)] and [max(a, b)] are [Z.min] and [Z.max].
    [int(sum(limits)/2.0)] divides a float and rounds towards zero. *)
Definition _update_varying_register (p : Z) (addr : Z)
    (self : A40HoldingRegistersDataBlock)
  : option A40HoldingRegistersDataBlock :=
  let limits := default (0, 1000) (REGISTER_LIMITS !! addr) in
  let last_values :=
    match _last_values self !! addr with
    | None => <[addr := Z.quot (limits.1 + limits.2) 2]> (_last_values self)
    | Some last =>
        if p <? 25 then
          <[addr := Z.min limits.2 (last + 25)]> (_last_values self)
        else if p <? 50 then
          <[addr := Z.max limits.1 (last - 25)]> (_last_values self)
        else _last_values self
    end in
  value ← last_values !! addr;
  d ← _expand_register_value addr value;
  Some (Block (sparse_setValues_dict (values self) d) last_values
              (_start_time self)).

(** The loop of [_step] over the addresses [ks]; [draws k] is the integer
    that [random.randint(0,100)] returns to the update of address [k]. *)
Fixpoint update_all (draws : Z → Z) (ks : list Z)
    (self : A40HoldingRegistersDataBlock)
  : option A40HoldingRegistersDataBlock :=
  match ks with
  | [] => Some self
  | k :: rest =>
      self' ← _update_varying_register (draws k) k self;
      update_all draws rest self'
  end.

(** [int(elapsed_time / 36)] at the clock reading [now]. *)
Definition diris_time (self : A40HoldingRegistersDataBlock) (now : Q) : Z :=
  let elapsed_time := (now - _start_time self)%Q in
  py_int (elapsed_time / 36)%Q.

(** One tick; [now] is what [time.time()] returns. *)
Definition _step (now : Q) (draws : Z → Z)
    (self : A40HoldingRegistersDataBlock)
  : option A40HoldingRegistersDataBlock :=
  d ← _expand_register_value _HOUR_METER (diris_time self now);
  let self1 := Block (sparse_setValues_dict (values self) d)
                     (_last_values self) (_start_time self) in
  update_all draws (keys _INITIAL_REGISTER_VALUES) self1.

(** The whole constructor.  [LoopingCall.start(1.0)] calls [_step] once at
    once, before it returns, and then once per second: the first tick is
    part of the construction.  [start_time] and [now] are the two clock
    readings taken on the way. *)
Definition __init__ (values : gmap Z Z) (start_time now : Q) (draws : Z → Z)
  : option A40HoldingRegistersDataBlock :=
  self ← new_block values start_time;
  _step now draws self.

(** The ticks that follow, one [(now, draws)] per tick. *)
Fixpoint run (ticks : list (Q * (Z → Z))) (self : A40HoldingRegistersDataBlock)
  : option A40HoldingRegistersDataBlock :=
  match ticks with
  | [] => Some self
  | (now, draws) :: rest => self' ← _step now draws self; run rest self'
  end.

(** The possible results of [random.randint(a, b)]: both ends included. *)
Definition randint (a b n : Z) : Prop := a <= n <= b.

(** The logical value of the register at [addr]: its [width] word slots,
    decoded. *)
Definition logical_value (self : A40HoldingRegistersDataBlock) (addr : Z)
  : option Z :=
  width ← _ALL_REGISTERS !! addr;
  words ← sparse_getValues (values self) addr width;
  Some (unpack words).

End Engine.

(** ** The slave context *)

Module Context.

Import Store Engine.

(** The block classes a context can hold. *)
Inductive datablock :=
  | SequentialBlock (b : sequential)
  | HoldingBlock (b : A40HoldingRegistersDataBlock).

Definition block_validate (b : datablock) (address count : Z) : bool :=
  match b with
  | SequentialBlock s => sequential_validate s address count
  | HoldingBlock h => sparse_validate (values h) address count
  end.

Definition block_getValues (b : datablock) (address count : Z)
  : option (list Z) :=
  match b with
  | SequentialBlock s => sequential_getValues s address count
  | HoldingBlock h => sparse_getValues (values h) address count
  end.

Definition block_setValues (b : datablock) (address : Z) (new : list Z)
  : option datablock :=
  match b with
  | SequentialBlock s => SequentialBlock <$> sequential_setValues s address new
  | HoldingBlock h =>
      Some (HoldingBlock (Block (sparse_setValues (values h) address new)
                                (_last_values h) (_start_time h)))
  end.

(** The keys of [self.store]. *)
Inductive family := fam_d | fam_c | fam_i | fam_h.

(** Modelled from the spec: [decode] belongs to the protocol library; it
    maps a function code to its family (discrete inputs, coils, input
    registers, holding registers), here with the function codes of the
    Modbus protocol; any other code is an error. *)
Definition decode (fx : Z) : option family :=
  if bool_decide (fx ∈ [1; 5; 15]) then Some fam_c
  else if bool_decide (fx = 2) then Some fam_d
  else if bool_decide (fx = 4) then Some fam_i
  else if bool_decide (fx ∈ [3; 6; 16; 22; 23]) then Some fam_h
  else None.

Record A40SlaveContext := SlaveContext {
  di : datablock; co : datablock; ir : datablock; hr : datablock
}.

(** [self.store[key]] *)
Definition store (self : A40SlaveContext) (key : family) : datablock :=
  match key with
  | fam_d => di self | fam_c => co self | fam_i => ir self | fam_h => hr self
  end.

Definition set_store (self : A40SlaveContext) (key : family) (b : datablock)
  : A40SlaveContext :=
  match key with
  | fam_d => SlaveContext b (co self) (ir self) (hr self)
  | fam_c => SlaveContext (di self) b (ir self) (hr self)
  | fam_i => SlaveContext (di self) (co self) b (hr self)
  | fam_h => SlaveContext (di self) (co self) (ir self) b
  end.

Definition validate (self : A40SlaveContext) (fx address count : Z)
  : option bool :=
  key ← decode fx;
  Some (block_validate (store self key) address count).

Definition getValues (self : A40SlaveContext) (fx address count : Z)
  : option (list Z) :=
  key ← decode fx;
  block_getValues (store self key) address count.

(** The blocks are mutated in place: the result is the context after the
    call. *)
Definition setValues (self : A40SlaveContext) (fx address : Z) (new : list Z)
  : option A40SlaveContext :=
  key ← decode fx;
  b ← block_setValues (store self key) address new;
  Some (set_store self key b).

(** [create()]; the arguments are those of the constructor of the holding
    registers. *)
Definition create (start_time now : Q) (draws : Z → Z)
  : option A40SlaveContext :=
  h ← __init__ _INITIAL_REGISTER_VALUES start_time now draws;
  Some (SlaveContext (SequentialBlock (Sequential 0 [1]))
                     (SequentialBlock (Sequential 0 [1]))
                     (SequentialBlock (Sequential 0 [1]))
                     (HoldingBlock h)).

End Context.

Import Store Engine Context.
(** ** Auxiliary definitions used in the proofs *)

(** The number a byte string denotes, most significant byte first. *)
Definition from_be (bs : list Z) : Z := foldl (λ acc b, acc * 256 + b) 0 bs.

(** The words read off a byte string two bytes at a time. *)
Fixpoint words_of_bytes (bs : list Z) : list Z :=
  match bs with
  | hi :: lo :: rest => (hi * 256 + lo) :: words_of_bytes rest
  | _ => []
  end.

(** The limits an update works with: the configured ones, else [[0, 1000]]. *)
Definition limits_of (addr : Z) : Z * Z :=
  default (0, 1000) (REGISTER_LIMITS !! addr).

(** The value an update leaves behind, from the draw and the last value. *)
Definition walk (p : Z) (limits : Z * Z) (last : option Z) : Z :=
  match last with
  | None => Z.quot (limits.1 + limits.2) 2
  | Some v =>
      if p <? 25 then Z.min limits.2 (v + 25)
      else if p <? 50 then Z.max limits.1 (v - 25)
      else v
  end.

(** [value] is a signed integer of [width] words. *)
Definition fits (value width : Z) : Prop :=
  - 2 ^ (16 * width - 1) <= value < 2 ^ (16 * width - 1).

(** Checks on one catalog entry: a width of one or two words, and limits
    that are ordered and fit that width. *)
Definition entry_ok (e : Z * Z) : bool :=
  let w := e.2 in
  let limits := limits_of e.1 in
  ((w =? 1) || (w =? 2)) && (- 2 ^ (16 * w - 1) <=? limits.1) &&
  (limits.1 <=? limits.2) && (limits.2 <? 2 ^ (16 * w - 1)).

(** Two catalog entries are the same or occupy disjoint word slots. *)
Definition disjoint_ok (e e' : Z * Z) : bool :=
  (e.1 =? e'.1) || (e.1 + e.2 <=? e'.1) || (e'.1 + e'.2 <=? e.1).

(** The logical value a catalog address starts with. *)
Definition initial_value (addr : Z) : Z :=
  match REGISTER_LIMITS !! addr with
  | Some (lo, hi) => (lo + hi) / 2
  | None => 0
  end.

Definition initial_ok (e : Z * Z) : bool :=
  bool_decide (is_Some (ALL !! e.1)) && (e.2 =? initial_value e.1).

(** The word slots of a freshly built block. *)
Definition initial_slots : gmap Z Z :=
  default ∅ (expand_all _INITIAL_REGISTER_VALUES (keys _ALL_REGISTERS) ∅).

(** The hour-meter value of a tick fits its two words. *)
Definition hour_fits (self : A40HoldingRegistersDataBlock) (now : Q) : Prop :=
  fits (diris_time self now) 2.

(** The blocks between two ticks: the slots are those of a fresh block and
    every last value is one of a catalog address, within its limits. *)
Definition block_inv (self : A40HoldingRegistersDataBlock) : Prop :=
  dom (values self) = dom initial_slots ∧
  ∀ addr v, _last_values self !! addr = Some v →
    is_Some (ALL !! addr) ∧ (limits_of addr).1 <= v <= (limits_of addr).2.

(** Every tick of the list has an hour-meter value that fits. *)
Fixpoint clock_fits (self : A40HoldingRegistersDataBlock)
    (ticks : list (Q * (Z → Z))) : Prop :=
  match ticks with
  | [] => True
  | (now, _) :: rest => hour_fits self now ∧ clock_fits self rest
  end.

(** The word slots of the register at [a] are the words of [v]. *)
Definition stored (self : A40HoldingRegistersDataBlock) (a v : Z) : Prop :=
  ∃ w, ALL !! a = Some w ∧ fits v w ∧
       sparse_getValues (values self) a w = _pack_value v w.

(** The blocks that went through a tick: every catalog address has a last
    value, and it is the logical value the store holds. *)
Definition ticked (self : A40HoldingRegistersDataBlock) : Prop :=
  ∀ a w, ALL !! a = Some w →
    ∃ v, _last_values self !! a = Some v ∧ stored self a v.

(** [_step] with the loop run over the addresses [ks] in that order;
    [_step] itself is the case of [keys _INITIAL_REGISTER_VALUES]. *)
Definition _step_in_order (ks : list Z) (now : Q) (draws : Z → Z)
    (self : A40HoldingRegistersDataBlock)
  : option A40HoldingRegistersDataBlock :=
  d ← _expand_register_value _HOUR_METER (diris_time self now);
  update_all draws ks
    (Block (sparse_setValues_dict (values self) d)
           (_last_values self) (_start_time self)).

(** The block after a client wrote the words [new] at [address]. *)
Definition written (self : A40HoldingRegistersDataBlock) (address : Z)
    (new : list Z) : A40HoldingRegistersDataBlock :=
  Block (sparse_setValues (values self) address new)
        (_last_values self) (_start_time self).

(** Whether a call returned a result. *)
Definition returns {A} (o : option A) : bool :=
  match o with Some _ => true | None => false end.

(** The tables are large: proofs use them through the facts checked by
    evaluation, never by unfolding. *)
Opaque ALL REGISTER_LIMITS _INITIAL_REGISTER_VALUES initial_slots.

Example pack_minus_one : _pack_value (-1) 2 = Some [65535; 65535].
Proof. reflexivity. Qed.

Example pack_25000 : _pack_value 25000 2 = Some [0; 25000].
Proof. reflexivity. Qed.

Example pack_width_3 : _pack_value 5 3 = None.
Proof. reflexivity. Qed.

Example pack_overflow : _pack_value 32768 1 = None.
Proof. reflexivity. Qed.

Example all_size : size ALL = 459%nat.
Proof. vm_compute. reflexivity. Qed.

(** ** Codec lemmas *)

(** A call that returned is [Some] of its result. *)
Lemma returns_default {A} (d : A) (o : option A) :
  returns o = true → o = Some (default d o).
Proof. destruct o; [reflexivity|discriminate]. Qed.

Section codec_facts.

Lemma from_be_snoc bs b : from_be (bs ++ [b]) = from_be bs * 256 + b.
Proof. unfold from_be. by rewrite foldl_app. Qed.

Lemma from_be_bytes n u :
  from_be (be_bytes n u) = u mod 256 ^ Z.of_nat n.
Proof.
  revert u. induction n as [|n IH]; intros u.
  - cbn. by rewrite Z.mod_1_r.
  - cbn [be_bytes]. rewrite from_be_snoc, IH.
    rewrite Nat2Z.inj_succ, Z.pow_succ_r by lia.
    assert (0 < 256 ^ Z.of_nat n) by (apply Z.pow_pos_nonneg; lia).
    rewrite Z.rem_mul_r by lia. lia.
Qed.

Lemma be_bytes_length n u : length (be_bytes n u) = n.
Proof.
  revert u. induction n as [|n IH]; intros u; [done|].
  cbn [be_bytes]. rewrite length_app, IH. cbn. lia.
Qed.

Lemma mapM_fmap_seq {A} (f : nat → option A) (g : nat → nat) l :
  mapM f (g <$> l) = mapM (f ∘ g) l.
Proof. induction l as [|x l IH]; [done|]. cbn. by rewrite IH. Qed.

Lemma mapM_ext_seq {A} (f g : nat → option A) l :
  (∀ i, f i = g i) → mapM f l = mapM g l.
Proof. intros E. induction l as [|x l IH]; [done|]. cbn. by rewrite E, IH. Qed.

Lemma pack_words bs (w : nat) :
  length bs = (2 * w)%nat →
  mapM (λ i : nat, struct_unpack_H (slice bs (2 * i) (2 * i + 2))) (seq 0 w)
  = Some (words_of_bytes bs).
Proof.
  revert bs. induction w as [|w IH]; intros bs Hlen.
  - by destruct bs.
  - destruct bs as [|hi [|lo rest]]; [cbn in Hlen; lia ..|].
    cbn [seq]. rewrite <- fmap_S_seq.
    cbn [mapM]. rewrite mapM_fmap_seq.
    rewrite (mapM_ext_seq _
      (λ i : nat, struct_unpack_H (slice rest (2 * i) (2 * i + 2)))).
    + rewrite IH by (cbn in Hlen; lia). reflexivity.
    + intros i. cbn [compose]. unfold slice.
      replace (2 * S i)%nat with (S (S (2 * i))) by lia.
      replace (S (S (2 * i)) + 2 - S (S (2 * i)))%nat with 2%nat by lia.
      replace (2 * i + 2 - 2 * i)%nat with 2%nat by lia.
      reflexivity.
Qed.

Lemma words_of_bytes_length bs (w : nat) :
  length bs = (2 * w)%nat → length (words_of_bytes bs) = w.
Proof.
  revert bs. induction w as [|w IH]; intros bs Hlen.
  - by destruct bs.
  - destruct bs as [|hi [|lo rest]]; [cbn in Hlen; lia ..|].
    cbn. f_equal. apply IH. cbn in Hlen. lia.
Qed.

Lemma foldl_words bs (w : nat) acc :
  length bs = (2 * w)%nat →
  foldl (λ a x, a * 65536 + x) acc (words_of_bytes bs)
  = foldl (λ a b, a * 256 + b) acc bs.
Proof.
  revert bs acc. induction w as [|w IH]; intros bs acc Hlen.
  - by destruct bs.
  - destruct bs as [|hi [|lo rest]]; [cbn in Hlen; lia ..|].
    cbn [words_of_bytes foldl]. rewrite IH by (cbn in Hlen; lia).
    f_equal. lia.
Qed.

(** What [_pack_value] returns for a supported width and a value that
    fits. *)
Lemma pack_value_eq value width f :
  _REGISTER_TYPES width = Some f →
  Z.of_nat (calcsize f) = 2 * width →
  - 2 ^ (16 * width - 1) <= value < 2 ^ (16 * width - 1) →
  _pack_value value width
  = Some (words_of_bytes (be_bytes (calcsize f) (value mod 2 ^ (16 * width)))).
Proof.
  intros Hf Hsz Hv. unfold _pack_value. rewrite Hf. cbn [mbind option_bind].
  unfold struct_pack.
  replace (8 * Z.of_nat (calcsize f)) with (16 * width) by lia.
  destruct (Z.leb_spec (- 2 ^ (16 * width - 1)) value); [|lia].
  destruct (Z.ltb_spec value (2 ^ (16 * width - 1))); [|lia].
  cbn [andb mbind option_bind].
  apply pack_words. rewrite be_bytes_length. lia.
Qed.

Lemma unpack_pack_words value (n : nat) (width : Z) :
  n = Z.to_nat (2 * width) → 0 < width →
  - 2 ^ (16 * width - 1) <= value < 2 ^ (16 * width - 1) →
  unpack (words_of_bytes (be_bytes n (value mod 2 ^ (16 * width)))) = value.
Proof.
  intros -> Hw Hv. unfold unpack.
  set (bs := be_bytes _ _).
  assert (Hlen : length bs = (2 * Z.to_nat width)%nat).
  { unfold bs. rewrite be_bytes_length. lia. }
  rewrite (words_of_bytes_length _ _ Hlen), (foldl_words _ _ _ Hlen).
  change (foldl _ 0 bs) with (from_be bs). unfold bs.
  rewrite from_be_bytes.
  replace (256 ^ Z.of_nat (Z.to_nat (2 * width))) with (2 ^ (16 * width)).
  2:{ change 256 with (2 ^ 8). rewrite <- Z.pow_mul_r by lia. f_equal. lia. }
  replace (16 * Z.of_nat (Z.to_nat width)) with (16 * width) by lia.
  rewrite Z.mod_mod by (apply Z.pow_nonzero; lia).
  assert (Hp : 2 ^ (16 * width) = 2 * 2 ^ (16 * width - 1)).
  { rewrite <- Z.pow_succ_r by lia. f_equal. lia. }
  assert (0 < 2 ^ (16 * width - 1)) by (apply Z.pow_pos_nonneg; lia).
  destruct (Z_lt_le_dec value 0) as [Hneg|Hpos].
  - rewrite <- (Z.mod_unique_pos value (2 ^ (16 * width)) (-1)
                 (value + 2 ^ (16 * width))) by lia.
    destruct (Z.ltb_spec (value + 2 ^ (16 * width)) (2 ^ (16 * width - 1))); lia.
  - rewrite Z.mod_small by lia.
    destruct (Z.ltb_spec value (2 ^ (16 * width - 1))); lia.
Qed.

End codec_facts.

(** ** Facts about the catalog, checked by evaluation *)

Section catalog_facts.

Lemma catalog_entries_ok : forallb entry_ok (map_to_list ALL) = true.
Proof. vm_compute. reflexivity. Qed.

Lemma catalog_disjoint_ok :
  forallb (λ e, forallb (disjoint_ok e) (map_to_list ALL)) (map_to_list ALL)
  = true.
Proof. vm_compute. reflexivity. Qed.

Lemma limits_in_catalog_ok :
  forallb (λ e : Z * (Z * Z), bool_decide (ALL !! e.1 = Some 2))
          (map_to_list REGISTER_LIMITS) = true.
Proof. vm_compute. reflexivity. Qed.

Lemma initial_values_ok :
  forallb initial_ok (map_to_list _INITIAL_REGISTER_VALUES) = true.
Proof. vm_compute. reflexivity. Qed.

Lemma initial_values_all_ok :
  forallb (λ e : Z * Z,
             bool_decide (is_Some (_INITIAL_REGISTER_VALUES !! e.1)))
          (map_to_list ALL) = true.
Proof. vm_compute. reflexivity. Qed.

Lemma forallb_map_to_list {A} (f : Z * A → bool) (m : gmap Z A) k x :
  forallb f (map_to_list m) = true → m !! k = Some x → f (k, x) = true.
Proof.
  intros Hall Hk. apply Is_true_true. apply Is_true_true_2 in Hall.
  apply forallb_True in Hall. rewrite Forall_forall in Hall.
  apply (Hall (k, x)). by apply elem_of_map_to_list.
Qed.

Lemma catalog_entry addr w :
  ALL !! addr = Some w →
  (w = 1 ∨ w = 2) ∧ fits (limits_of addr).1 w ∧ fits (limits_of addr).2 w ∧
  (limits_of addr).1 <= (limits_of addr).2.
Proof.
  intros H. pose proof (forallb_map_to_list _ _ _ _ catalog_entries_ok H) as E.
  unfold entry_ok in E. cbn [fst snd] in E. unfold fits.
  repeat (apply andb_prop in E; destruct E as [E ?]).
  apply orb_prop in E.
  assert (w = 1 ∨ w = 2) as Hw by (destruct E; [left|right]; lia).
  split; [done|]. lia.
Qed.

Lemma catalog_disjoint a w a' w' :
  ALL !! a = Some w → ALL !! a' = Some w' → a ≠ a' →
  a + w <= a' ∨ a' + w' <= a.
Proof.
  intros H H' Hne.
  pose proof (forallb_map_to_list _ _ _ _ catalog_disjoint_ok H) as E.
  cbn beta in E.
  pose proof (forallb_map_to_list _ _ _ _ E H') as E'.
  unfold disjoint_ok in E'. cbn [fst snd] in E'.
  apply orb_prop in E'. destruct E' as [E'|E']; [|lia].
  apply orb_prop in E'. destruct E' as [E'|E']; lia.
Qed.

Lemma limits_in_catalog addr lims :
  REGISTER_LIMITS !! addr = Some lims → ALL !! addr = Some 2.
Proof.
  intros H. pose proof (forallb_map_to_list _ _ _ _ limits_in_catalog_ok H) as E.
  cbn [fst] in E. by apply bool_decide_eq_true in E.
Qed.

Lemma initial_values_lookup addr v :
  _INITIAL_REGISTER_VALUES !! addr = Some v →
  is_Some (ALL !! addr) ∧ v = initial_value addr.
Proof.
  intros H. pose proof (forallb_map_to_list _ _ _ _ initial_values_ok H) as E.
  unfold initial_ok in E. cbn [fst snd] in E.
  apply andb_prop in E. destruct E as [E1 E2].
  apply bool_decide_eq_true in E1. split; [done|lia].
Qed.

Lemma initial_values_total addr w :
  ALL !! addr = Some w →
  _INITIAL_REGISTER_VALUES !! addr = Some (initial_value addr).
Proof.
  intros H. pose proof (forallb_map_to_list _ _ _ _ initial_values_all_ok H) as E.
  cbn [fst] in E. apply bool_decide_eq_true in E. destruct E as [v Hv].
  rewrite Hv. f_equal. by apply initial_values_lookup.
Qed.

Lemma elem_of_keys {A} (m : gmap Z A) k : k ∈ keys m ↔ is_Some (m !! k).
Proof.
  unfold keys. rewrite list_elem_of_fmap. split.
  - intros [[k' x] [-> H]]. apply elem_of_map_to_list in H. by exists x.
  - intros [x H]. exists (k, x). split; [done|]. by apply elem_of_map_to_list.
Qed.

Lemma keys_initial_values k :
  k ∈ keys _INITIAL_REGISTER_VALUES ↔ is_Some (ALL !! k).
Proof.
  rewrite elem_of_keys. split.
  - intros [v H]. by apply initial_values_lookup in H as [? _].
  - intros [w H]. eexists. by eapply initial_values_total.
Qed.

Lemma midpoint_between lo hi : lo <= hi → lo <= Z.quot (lo + hi) 2 <= hi.
Proof. intros H. Z.to_euclidean_division_equations. lia. Qed.

End catalog_facts.

(** ** Writing and reading word slots *)

Section store_facts.

Implicit Types (d m : gmap Z Z) (ws : list Z).

Lemma enumerate_store_lookup address idx ws d k :
  enumerate_store address idx ws d !! k
  = if decide (address + idx <= k < address + idx + Z.of_nat (length ws))
    then ws !! Z.to_nat (k - address - idx)
    else d !! k.
Proof.
  revert idx d. induction ws as [|w ws IH]; intros idx d.
  - cbn. case_decide; [lia|done].
  - cbn [enumerate_store length]. rewrite IH.
    destruct (decide (k = address + idx)) as [->|Hne].
    + rewrite decide_False by lia. rewrite decide_True by lia.
      rewrite lookup_insert_eq.
      by replace (address + idx - address - idx) with 0 by lia.
    + rewrite lookup_insert_ne by done.
      case_decide; case_decide; try lia; [|done].
      replace (Z.to_nat (k - address - idx))
        with (S (Z.to_nat (k - address - (idx + 1)))) by lia.
      done.
Qed.

Lemma enumerate_store_dom address idx ws d :
  dom (enumerate_store address idx ws d)
  = list_to_set (seqZ (address + idx) (Z.of_nat (length ws))) ∪ dom d.
Proof.
  apply set_eq. intros k.
  rewrite elem_of_union, elem_of_list_to_set, elem_of_seqZ, !elem_of_dom.
  rewrite enumerate_store_lookup. case_decide as Hk.
  - split; [intros _; left; lia|intros _].
    apply lookup_lt_is_Some. lia.
  - split; [by right|]. intros [?|?]; [lia|done].
Qed.

(** Writing a list at [address] and writing the dict made of it are the
    same. *)
Lemma setValues_dict_list m address ws :
  sparse_setValues_dict m (enumerate_store address 0 ws ∅)
  = sparse_setValues m address ws.
Proof.
  apply map_eq. intros k. unfold sparse_setValues_dict, sparse_setValues.
  rewrite lookup_union, !enumerate_store_lookup.
  case_decide.
  - destruct (ws !! _) eqn:E; [by destruct (m !! k)|].
    apply lookup_ge_None in E. lia.
  - rewrite lookup_empty. by destruct (m !! k).
Qed.

Lemma getValues_ext m1 m2 address count :
  (∀ k, address <= k < address + count → m1 !! k = m2 !! k) →
  sparse_getValues m1 address count = sparse_getValues m2 address count.
Proof.
  intros H. unfold sparse_getValues.
  assert (Forall (λ k, m1 !! k = m2 !! k) (seqZ address count)) as HF.
  { apply Forall_forall. intros k Hk. apply elem_of_seqZ in Hk. by apply H. }
  induction HF as [|k l Hk _ IH]; [done|].
  cbn. by rewrite Hk, IH.
Qed.

Lemma mapM_lookup_seqZ (f : Z → option Z) address ws :
  (∀ i w, ws !! i = Some w → f (address + Z.of_nat i) = Some w) →
  mapM f (seqZ address (Z.of_nat (length ws))) = Some ws.
Proof.
  revert address. induction ws as [|w ws IH]; intros address H; [done|].
  cbn [length]. rewrite seqZ_cons by lia. cbn [mapM].
  rewrite <- (Z.add_0_r address) at 1. change 0 with (Z.of_nat 0).
  rewrite (H 0%nat w) by done. cbn.
  replace (Z.pred (Z.of_nat (S (length ws)))) with (Z.of_nat (length ws)) by lia.
  rewrite IH; [done|].
  intros i w' Hi. replace (Z.succ address + Z.of_nat i)
    with (address + Z.of_nat (S i)) by lia.
  by apply H.
Qed.

(** The words written at [address] are the words read there. *)
Lemma getValues_setValues m address ws :
  sparse_getValues (sparse_setValues m address ws) address
                   (Z.of_nat (length ws)) = Some ws.
Proof.
  unfold sparse_getValues, sparse_setValues. apply mapM_lookup_seqZ.
  intros i w Hi. rewrite enumerate_store_lookup.
  pose proof (lookup_lt_Some _ _ _ Hi).
  rewrite decide_True by lia.
  by replace (Z.to_nat (address + Z.of_nat i - address - 0)) with i by lia.
Qed.

(** Slots outside [[address, address + len)] keep their word. *)
Lemma setValues_other m address ws k :
  ¬ (address <= k < address + Z.of_nat (length ws)) →
  sparse_setValues m address ws !! k = m !! k.
Proof.
  intros H. unfold sparse_setValues. rewrite enumerate_store_lookup.
  rewrite decide_False by lia. done.
Qed.

Lemma setValues_dom m address ws :
  dom (sparse_setValues m address ws)
  = list_to_set (seqZ address (Z.of_nat (length ws))) ∪ dom m.
Proof.
  unfold sparse_setValues. rewrite enumerate_store_dom. by rewrite Z.add_0_r.
Qed.

Lemma validate_spec m address count :
  sparse_validate m address count = true
  ↔ ∀ k, address <= k < address + count → k ∈ dom m.
Proof.
  unfold sparse_validate. rewrite <- Is_true_true, forallb_True, Forall_forall.
  split.
  - intros H k Hk. apply elem_of_dom. eapply bool_decide_unpack.
    apply H. apply elem_of_seqZ. lia.
  - intros H k Hk. apply elem_of_seqZ in Hk. apply bool_decide_pack.
    apply elem_of_dom. apply H. lia.
Qed.

Lemma validate_dom m1 m2 address count :
  dom m1 = dom m2 →
  sparse_validate m1 address count = sparse_validate m2 address count.
Proof.
  intros Hd.
  destruct (sparse_validate m1 address count) eqn:E1;
  destruct (sparse_validate m2 address count) eqn:E2; try done.
  - pose proof (proj1 (validate_spec _ _ _) E1) as H. rewrite Hd in H.
    apply validate_spec in H. congruence.
  - pose proof (proj1 (validate_spec _ _ _) E2) as H. rewrite <- Hd in H.
    apply validate_spec in H. congruence.
Qed.

End store_facts.

(** ** Expanding a register value *)

Section expand_facts.

Lemma pack_value_spec value width :
  width = 1 ∨ width = 2 ∨ width = 4 → fits value width →
  ∃ words, _pack_value value width = Some words ∧
           Z.of_nat (length words) = width ∧ unpack words = value.
Proof.
  intros Hw Hv.
  assert (∃ f, _REGISTER_TYPES width = Some f ∧
               Z.of_nat (calcsize f) = 2 * width) as (f & Hf & Hsz).
  { destruct Hw as [->|[->| ->]]; eexists; split; reflexivity. }
  exists (words_of_bytes (be_bytes (calcsize f) (value mod 2 ^ (16 * width)))).
  split; [by apply pack_value_eq|]. split.
  - rewrite (words_of_bytes_length _ (Z.to_nat width)); [lia|].
    rewrite be_bytes_length. lia.
  - apply unpack_pack_words; [lia|lia|done].
Qed.

Lemma pack_value_None_width value width :
  ¬ (width = 1 ∨ width = 2 ∨ width = 4) → _pack_value value width = None.
Proof.
  intros H. unfold _pack_value, _REGISTER_TYPES.
  destruct (Z.eqb_spec width 1); [lia|].
  destruct (Z.eqb_spec width 2); [lia|].
  destruct (Z.eqb_spec width 4); [lia|]. done.
Qed.

Lemma expand_spec addr width value :
  ALL !! addr = Some width → fits value width →
  ∃ words, _pack_value value width = Some words ∧
           Z.of_nat (length words) = width ∧ unpack words = value ∧
           _expand_register_value addr value
           = Some (enumerate_store addr 0 words ∅).
Proof.
  intros Ha Hv. destruct (catalog_entry _ _ Ha) as (Hw & _).
  destruct (pack_value_spec value width) as (words & Hp & Hl & Hu);
    [lia|done|].
  exists words. split; [exact Hp|]. split; [exact Hl|]. split; [exact Hu|].
  unfold _expand_register_value, _ALL_REGISTERS. rewrite Ha. cbn.
  rewrite Hp. done.
Qed.

End expand_facts.

(** ** One update, one tick *)

Section engine_facts.

Implicit Types (self b : A40HoldingRegistersDataBlock).

Lemma logical_value_ext b1 b2 addr w :
  ALL !! addr = Some w →
  (∀ k, addr <= k < addr + w → values b1 !! k = values b2 !! k) →
  logical_value b1 addr = logical_value b2 addr.
Proof.
  intros Ha H. unfold logical_value, _ALL_REGISTERS. rewrite Ha. cbn.
  by rewrite (getValues_ext _ _ _ _ H).
Qed.

Lemma new_block_eq start_time :
  new_block _INITIAL_REGISTER_VALUES start_time
  = Some (Block initial_slots ∅ start_time).
Proof.
  unfold new_block.
  assert (bool_decide (dom _INITIAL_REGISTER_VALUES ⊆ dom _ALL_REGISTERS)
          = true) as -> by (vm_compute; reflexivity).
  assert (expand_all _INITIAL_REGISTER_VALUES (keys _ALL_REGISTERS) ∅
          = Some initial_slots) as -> by (vm_compute; reflexivity).
  reflexivity.
Qed.

Lemma initial_slots_backed_ok :
  forallb (λ e : Z * Z, sparse_validate initial_slots e.1 e.2)
          (map_to_list ALL) = true.
Proof. vm_compute. reflexivity. Qed.

Lemma initial_slots_values_ok :
  forallb (λ e : Z * Z,
             bool_decide (logical_value (Block initial_slots ∅ 0) e.1
                          = Some (initial_value e.1)))
          (map_to_list ALL) = true.
Proof. vm_compute. reflexivity. Qed.

Lemma initial_slots_words_ok :
  forallb (λ e : Z * Z,
             bool_decide (sparse_getValues initial_slots e.1 e.2
                          = _pack_value (initial_value e.1) e.2))
          (map_to_list ALL) = true.
Proof. vm_compute. reflexivity. Qed.

Lemma initial_slots_backed addr w k :
  ALL !! addr = Some w → addr <= k < addr + w → k ∈ dom initial_slots.
Proof.
  intros Ha Hk.
  pose proof (forallb_map_to_list _ _ _ _ initial_slots_backed_ok Ha) as E.
  cbn [fst snd] in E. by apply (proj1 (validate_spec _ _ _) E).
Qed.

Lemma new_block_value start_time addr w :
  ALL !! addr = Some w →
  logical_value (Block initial_slots ∅ start_time) addr
  = Some (initial_value addr).
Proof.
  intros Ha.
  pose proof (forallb_map_to_list _ _ _ _ initial_slots_values_ok Ha) as E.
  cbn [fst] in E. apply bool_decide_eq_true in E. rewrite <- E.
  apply (logical_value_ext _ _ _ w); [exact Ha|].
intros k _. cbn [values]. reflexivity.
Qed.

Lemma new_block_inv start_time : block_inv (Block initial_slots ∅ start_time).
Proof. split; [done|]. intros addr v H. cbn in H. by rewrite lookup_empty in H. Qed.

(** Writing one expanded register. *)
Lemma write_register self addr w value lv :
  ALL !! addr = Some w → fits value w →
  dom (values self) = dom initial_slots →
  ∃ d, _expand_register_value addr value = Some d ∧
    let self' := Block (sparse_setValues_dict (values self) d) lv
                       (_start_time self) in
    dom (values self') = dom initial_slots ∧
    stored self' addr value ∧
    ∀ a' w', ALL !! a' = Some w' → a' ≠ addr →
             sparse_getValues (values self') a' w'
             = sparse_getValues (values self) a' w'.
Proof.
  intros Ha Hv Hdom.
  destruct (expand_spec _ _ _ Ha Hv) as (words & Hp & Hl & Hu & He).
  eexists. split; [exact He|]. cbn zeta.
  rewrite setValues_dict_list. split; [|split].
  - cbn [values]. rewrite setValues_dom, Hdom.
    apply subseteq_union_1_L. intros k Hk.
    apply elem_of_list_to_set, elem_of_seqZ in Hk.
    apply (initial_slots_backed addr w); [exact Ha|lia].
  - exists w. split; [exact Ha|]. split; [exact Hv|].
    cbn [values]. rewrite Hp, <- Hl. apply getValues_setValues.
  - intros a' w' Ha' Hne. apply getValues_ext.
    intros k Hk. cbn [values]. apply setValues_other.
    destruct (catalog_disjoint _ _ _ _ Ha Ha'); [exact (not_eq_sym Hne)|lia|lia].
Qed.

Lemma stored_logical self a v : stored self a v → logical_value self a = Some v.
Proof.
  intros (w & Ha & Hfit & Hg). destruct (catalog_entry _ _ Ha) as (Hw & _).
  destruct (pack_value_spec v w) as (words & Hp & _ & Hu); [lia|exact Hfit|].
  unfold logical_value, _ALL_REGISTERS. rewrite Ha. cbn [mbind option_bind].
  rewrite Hg, Hp. cbn [mbind option_bind]. rewrite Hu. reflexivity.
Qed.

Lemma stored_frame self self' a w v :
  ALL !! a = Some w →
  sparse_getValues (values self') a w = sparse_getValues (values self) a w →
  stored self a v → stored self' a v.
Proof.
  intros Ha E (w' & Ha' & Hfit & Hg). rewrite Ha in Ha'. injection Ha' as <-.
  exists w. split; [exact Ha|]. split; [exact Hfit|]. rewrite E. exact Hg.
Qed.

Lemma walk_in_limits p addr w last :
  ALL !! addr = Some w →
  (∀ v, last = Some v → (limits_of addr).1 <= v <= (limits_of addr).2) →
  (limits_of addr).1 <= walk p (limits_of addr) last <= (limits_of addr).2.
Proof.
  intros Ha Hlast. destruct (catalog_entry _ _ Ha) as (_ & _ & _ & Hle).
  unfold walk. destruct last as [v|].
  - specialize (Hlast v eq_refl).
    destruct (p <? 25); [lia|]. destruct (p <? 50); lia.
  - by apply midpoint_between.
Qed.

Lemma fits_between lo hi v w : fits lo w → fits hi w → lo <= v <= hi → fits v w.
Proof. unfold fits. lia. Qed.

Lemma update_spec p addr w self :
  ALL !! addr = Some w → block_inv self →
  let nv := walk p (limits_of addr) (_last_values self !! addr) in
  ∃ self', _update_varying_register p addr self = Some self' ∧
    block_inv self' ∧ _start_time self' = _start_time self ∧
    _last_values self' = <[addr := nv]> (_last_values self) ∧
    stored self' addr nv ∧
    ∀ a' w', ALL !! a' = Some w' → a' ≠ addr →
             sparse_getValues (values self') a' w'
             = sparse_getValues (values self) a' w'.
Proof.
  intros Ha [Hdom Hlast] nv.
  assert ((limits_of addr).1 <= nv <= (limits_of addr).2) as Hnv.
  { apply (walk_in_limits _ _ w); [done|]. intros v Hv. by apply Hlast. }
  destruct (catalog_entry _ _ Ha) as (_ & Hlo & Hhi & _).
  pose proof (fits_between _ _ _ _ Hlo Hhi Hnv) as Hfit.
  set (lv := <[addr := nv]> (_last_values self)).
  destruct (write_register self addr w nv lv Ha Hfit Hdom)
    as (d & He & Hd' & Hval & Hframe).
  exists (Block (sparse_setValues_dict (values self) d) lv (_start_time self)).
  assert (_update_varying_register p addr self
          = Some (Block (sparse_setValues_dict (values self) d) lv
                        (_start_time self))) as Hrun.
  { unfold _update_varying_register. fold (limits_of addr).
    assert (match _last_values self !! addr with
            | Some last =>
                if p <? 25
                then <[addr:=Z.min (limits_of addr).2 (last + 25)]>
                       (_last_values self)
                else if p <? 50
                then <[addr:=Z.max (limits_of addr).1 (last - 25)]>
                       (_last_values self)
                else _last_values self
            | None => <[addr:=Z.quot ((limits_of addr).1 + (limits_of addr).2) 2]>
                        (_last_values self)
            end = lv) as ->.
    { unfold lv, nv, walk. destruct (_last_values self !! addr) as [v|] eqn:E;
        [|done].
      destruct (p <? 25); [done|]. destruct (p <? 50); [done|].
      by rewrite insert_id. }
    assert (lv !! addr = Some nv) as -> by apply lookup_insert_eq.
    cbn. rewrite He. done. }
  split; [exact Hrun|]. split.
  2:{ split; [reflexivity|]. split; [reflexivity|]. split; [exact Hval|exact Hframe]. }
  split; [exact Hd'|]. intros a v. cbn [_last_values]. unfold lv.
  destruct (decide (a = addr)) as [->|Hne].
  - rewrite lookup_insert_eq. intros [= <-]. split; [by eexists|done].
  - rewrite lookup_insert_ne by done. apply Hlast.
Qed.

Lemma update_all_spec draws ks self :
  NoDup ks → (∀ k, k ∈ ks → is_Some (ALL !! k)) → block_inv self →
  ∃ self', update_all draws ks self = Some self' ∧
    block_inv self' ∧ _start_time self' = _start_time self ∧
    (∀ a, a ∈ ks →
       let nv := walk (draws a) (limits_of a) (_last_values self !! a) in
       _last_values self' !! a = Some nv ∧ stored self' a nv) ∧
    (∀ a w, ALL !! a = Some w → a ∉ ks →
       _last_values self' !! a = _last_values self !! a ∧
       sparse_getValues (values self') a w
       = sparse_getValues (values self) a w).
Proof.
  intros Hnd. revert self.
  induction Hnd as [|k ks Hk Hnd IH]; intros self Hcat Hinv.
  - exists self. split; [reflexivity|]. split; [exact Hinv|].
    split; [reflexivity|]. split.
    + intros a Ha. by apply elem_of_nil in Ha.
    + intros a w _ _. split; reflexivity.
  - destruct (Hcat k) as [w Hw]; [apply list_elem_of_here|].
    destruct (update_spec (draws k) k w self Hw Hinv)
      as (s1 & Hrun1 & Hinv1 & Ht1 & Hlv1 & Hval1 & Hframe1).
    destruct (IH s1) as (s2 & Hrun2 & Hinv2 & Ht2 & Hin2 & Hout2);
      [intros k' Hk'; apply Hcat; apply list_elem_of_further; exact Hk'
      |exact Hinv1|].
    exists s2. cbn [update_all]. rewrite Hrun1. cbn [mbind option_bind].
    split; [exact Hrun2|]. split; [exact Hinv2|].
    split; [rewrite Ht2; exact Ht1|]. split.
    + intros a Ha. apply elem_of_cons in Ha as [->|Ha].
      * destruct (Hout2 k w Hw Hk) as [-> Hg].
        rewrite Hlv1, lookup_insert_eq.
        split; [reflexivity|exact (stored_frame _ _ _ _ _ Hw Hg Hval1)].
      * destruct (Hin2 a Ha) as [H1 H2].
        assert (a ≠ k) as Hne by (intros ->; exact (Hk Ha)).
        rewrite Hlv1, lookup_insert_ne in H1 by (intros E; exact (Hne (eq_sym E))).
        rewrite Hlv1, lookup_insert_ne in H2
          by (intros E; exact (Hne (eq_sym E))).
        split; [exact H1|exact H2].
    + intros a w' Ha Hnotin. apply not_elem_of_cons in Hnotin as [Hne Hnotin].
      destruct (Hout2 a w' Ha Hnotin) as [-> ->].
      rewrite Hlv1, lookup_insert_ne by (intros E; exact (Hne (eq_sym E))).
      split; [reflexivity|]. exact (Hframe1 a w' Ha Hne).
Qed.

Lemma hour_meter_in_catalog : ALL !! _HOUR_METER = Some 2.
Proof. vm_compute. reflexivity. Qed.

(** A tick of a block that satisfies the invariant: it returns, the
    invariant holds again, and every catalog address holds the value its
    own update computed. *)
Lemma step_spec now draws self :
  block_inv self → hour_fits self now →
  ∃ self', _step now draws self = Some self' ∧
    block_inv self' ∧ _start_time self' = _start_time self ∧
    ∀ a w, ALL !! a = Some w →
      let nv := walk (draws a) (limits_of a) (_last_values self !! a) in
      _last_values self' !! a = Some nv ∧ stored self' a nv.
Proof.
  intros [Hdom Hlast] Hfit.
  destruct (write_register self _HOUR_METER 2 (diris_time self now)
              (_last_values self) hour_meter_in_catalog Hfit Hdom)
    as (d & He & Hd1 & _ & _).
  set (s1 := Block (sparse_setValues_dict (values self) d)
                   (_last_values self) (_start_time self)) in *.
  assert (block_inv s1) as Hinv1 by (split; [exact Hd1|exact Hlast]).
  destruct (update_all_spec draws (keys _INITIAL_REGISTER_VALUES) s1)
    as (s2 & Hrun & Hinv2 & Ht2 & Hin & _).
  { apply NoDup_fst_map_to_list. }
  { intros k Hk. apply keys_initial_values. exact Hk. }
  { exact Hinv1. }
  exists s2. unfold _step. rewrite He. cbn [mbind option_bind]. fold s1.
  split; [exact Hrun|]. split; [exact Hinv2|]. split; [exact Ht2|].
  intros a w Ha. apply Hin. apply keys_initial_values. exists w. exact Ha.
Qed.

(** When the hour-meter value does not fit, [struct.pack] raises. *)
Lemma step_raises now draws self :
  ¬ hour_fits self now → _step now draws self = None.
Proof.
  intros H. unfold _step, _expand_register_value, _ALL_REGISTERS.
  rewrite hour_meter_in_catalog. cbn [mbind option_bind].
  assert (_pack_value (diris_time self now) 2 = None) as ->; [|reflexivity].
  unfold _pack_value. change (_REGISTER_TYPES 2) with (Some fmt_i).
  cbn [mbind option_bind]. unfold struct_pack. unfold hour_fits, fits in H.
  change (8 * Z.of_nat (calcsize fmt_i) - 1) with (16 * 2 - 1).
  destruct (Z.leb_spec (- 2 ^ (16 * 2 - 1)) (diris_time self now));
    destruct (Z.ltb_spec (diris_time self now) (2 ^ (16 * 2 - 1)));
    try reflexivity.
  lia.
Qed.

End engine_facts.

(** ** Any number of ticks *)

Section run_facts.

Implicit Types (self b : A40HoldingRegistersDataBlock).

Lemma hour_fits_start b1 b2 now :
  _start_time b1 = _start_time b2 → hour_fits b1 now → hour_fits b2 now.
Proof. unfold hour_fits, diris_time. by intros ->. Qed.

Lemma clock_fits_start b1 b2 ticks :
  _start_time b1 = _start_time b2 → clock_fits b1 ticks → clock_fits b2 ticks.
Proof.
  intros E. induction ticks as [|[now draws] ticks IH]; [done|].
  cbn. intros [H1 H2]. split; [by eapply hour_fits_start|auto].
Qed.

(** A tick that returns is one whose hour-meter value fits. *)
Lemma step_inv now draws b b' :
  block_inv b → _step now draws b = Some b' →
  block_inv b' ∧ _start_time b' = _start_time b ∧
  ∀ a w, ALL !! a = Some w →
    let nv := walk (draws a) (limits_of a) (_last_values b !! a) in
    _last_values b' !! a = Some nv ∧ stored b' a nv.
Proof.
  intros Hinv Hrun.
  destruct (decide (- 2 ^ (16 * 2 - 1) <= diris_time b now < 2 ^ (16 * 2 - 1)))
    as [Hfit|Hfit].
  - destruct (step_spec now draws b Hinv Hfit) as (b2 & Hrun2 & ?).
    rewrite Hrun in Hrun2. by injection Hrun2 as <-.
  - rewrite (step_raises now draws b Hfit) in Hrun. discriminate.
Qed.

Lemma step_ticked now draws b b' :
  block_inv b → _step now draws b = Some b' → ticked b'.
Proof.
  intros Hinv Hrun. destruct (step_inv _ _ _ _ Hinv Hrun) as (_ & _ & H).
  intros a w Ha. eexists. by apply (H a w).
Qed.

Lemma run_inv ticks b b' :
  block_inv b → run ticks b = Some b' →
  block_inv b' ∧ _start_time b' = _start_time b ∧
  (ticked b → ticked b') ∧ (ticks ≠ [] → ticked b') ∧ (ticks = [] → b' = b).
Proof.
  revert b. induction ticks as [|[now draws] ticks IH]; intros b Hinv Hrun.
  - cbn [run] in Hrun. injection Hrun as <-.
  split; [exact Hinv|]. split; [reflexivity|]. split; [intros H; exact H|].
  split; [intros H; destruct (H eq_refl)|reflexivity].
  - cbn [run] in Hrun. destruct (_step now draws b) as [b1|] eqn:E1; [|done].
    cbn in Hrun. destruct (step_inv _ _ _ _ Hinv E1) as (Hinv1 & Ht1 & _).
    pose proof (step_ticked _ _ _ _ Hinv E1) as Htick1.
    destruct (IH b1 Hinv1 Hrun) as (Hinv' & Ht' & Hk & _ & _).
    split; [exact Hinv'|]. split; [rewrite Ht'; exact Ht1|].
  split; [intros _; exact (Hk Htick1)|].
  split; [intros _; exact (Hk Htick1)|intros E; inversion E].
Qed.

Lemma run_returns ticks b :
  block_inv b → clock_fits b ticks → ∃ b', run ticks b = Some b'.
Proof.
  revert b. induction ticks as [|[now draws] ticks IH]; intros b Hinv Hclk.
  - by exists b.
  - destruct Hclk as [Hnow Hclk].
    destruct (step_spec now draws b Hinv Hnow) as (b1 & E1 & Hinv1 & Ht1 & _).
    destruct (IH b1 Hinv1) as [b' Hb']; [by eapply clock_fits_start|].
    exists b'. cbn [run]. rewrite E1. done.
Qed.

(** What a tick does to the logical value of a catalog address of a block
    that went through a tick before. *)
Lemma tick_walk now draws b b' a w :
  block_inv b → ticked b → _step now draws b = Some b' →
  ALL !! a = Some w →
  ∃ v, logical_value b a = Some v ∧
    (limits_of a).1 <= v <= (limits_of a).2 ∧
    logical_value b' a = Some (walk (draws a) (limits_of a) (Some v)).
Proof.
  intros Hinv Htick Hrun Ha.
  destruct (Htick a w Ha) as (v & Hlv & Hval).
  destruct (step_inv _ _ _ _ Hinv Hrun) as (_ & _ & H).
  destruct (H a w Ha) as [_ H2]. rewrite Hlv in H2.
  exists v. split; [exact (stored_logical _ _ _ Hval)|].
  split; [|exact (stored_logical _ _ _ H2)].
  destruct Hinv as [_ Hl]. exact (proj2 (Hl a v Hlv)).
Qed.

(** The first tick of a fresh block stores the midpoint of the limits. *)
Lemma first_tick now draws start_time b' a w :
  _step now draws (Block initial_slots ∅ start_time) = Some b' →
  ALL !! a = Some w →
  logical_value b' a
  = Some (Z.quot ((limits_of a).1 + (limits_of a).2) 2).
Proof.
  intros Hrun Ha.
  destruct (step_inv _ _ _ _ (new_block_inv start_time) Hrun) as (_ & _ & H).
  destruct (H a w Ha) as [_ H2]. cbn [_last_values] in H2.
  rewrite lookup_empty in H2. exact (stored_logical _ _ _ H2).
Qed.

Lemma limits_sum_ok :
  forallb (λ e : Z * (Z * Z), 0 <=? e.2.1 + e.2.2)
          (map_to_list REGISTER_LIMITS) = true.
Proof. vm_compute. reflexivity. Qed.

(** For the configured limits both roundings of the midpoint agree. *)
Lemma limits_midpoint addr lo hi :
  REGISTER_LIMITS !! addr = Some (lo, hi) → Z.quot (lo + hi) 2 = (lo + hi) / 2.
Proof.
  intros H. pose proof (forallb_map_to_list _ _ _ _ limits_sum_ok H) as E.
  cbn [fst snd] in E. apply Z.quot_div_nonneg; lia.
Qed.

Lemma limits_of_bounded addr lo hi :
  REGISTER_LIMITS !! addr = Some (lo, hi) → limits_of addr = (lo, hi).
Proof. unfold limits_of. by intros ->. Qed.

Lemma limits_of_unbounded addr :
  REGISTER_LIMITS !! addr = None → limits_of addr = (0, 1000).
Proof. unfold limits_of. by intros ->. Qed.

(** The keys of an expanded dict are the [width] addresses from [addr]. *)
Lemma expand_dom addr w value d :
  ALL !! addr = Some w → _expand_register_value addr value = Some d →
  dom d = list_to_set (seqZ addr w).
Proof.
  intros Ha He. unfold _expand_register_value, _ALL_REGISTERS in He.
  rewrite Ha in He. cbn in He.
  destruct (_pack_value value w) as [words|] eqn:Hp; [|done].
  cbn in He. injection He as <-.
  rewrite enumerate_store_dom, dom_empty_L, (right_id_L ∅ _), Z.add_0_r.
  unfold _pack_value in Hp.
  destruct (_REGISTER_TYPES w) as [f|]; [|done]. cbn in Hp.
  destruct (struct_pack f value) as [bs|]; [|done]. cbn in Hp.
  apply length_mapM in Hp. rewrite length_seq in Hp.
  destruct (catalog_entry _ _ Ha) as (Hw & _).
  replace (Z.of_nat (length words)) with w by lia. done.
Qed.

(** The tick of a block whose start time is known. *)
Lemma step_at b start_time now draws :
  block_inv b → _start_time b = start_time →
  fits (py_int ((now - start_time) / 36)%Q) 2 →
  ∃ b', _step now draws b = Some b' ∧
    block_inv b' ∧ _start_time b' = start_time ∧
    ∀ a w, ALL !! a = Some w →
      let nv := walk (draws a) (limits_of a) (_last_values b !! a) in
      _last_values b' !! a = Some nv ∧ stored b' a nv.
Proof.
  intros Hinv Ht Hfit.
  assert (hour_fits b now) as Hh.
  { unfold hour_fits, diris_time. rewrite Ht. exact Hfit. }
  destruct (step_spec now draws b Hinv Hh) as (b' & E & Hinv' & Ht' & H).
  exists b'. split; [exact E|]. split; [exact Hinv'|].
  split; [rewrite Ht'; exact Ht|exact H].
Qed.

(** The constructor: its tick stores the midpoint of the limits at every
    catalog address. *)
Lemma init_spec start_time now draws :
  fits (py_int ((now - start_time) / 36)%Q) 2 →
  ∃ b, __init__ _INITIAL_REGISTER_VALUES start_time now draws = Some b ∧
    block_inv b ∧ _start_time b = start_time ∧
    ∀ a w, ALL !! a = Some w →
      let mid := Z.quot ((limits_of a).1 + (limits_of a).2) 2 in
      _last_values b !! a = Some mid ∧ stored b a mid.
Proof.
  intros Hfit.
  destruct (step_at (Block initial_slots ∅ start_time) start_time now draws
              (new_block_inv start_time) eq_refl Hfit)
    as (b & E & Hinv & Ht & H).
  exists b. unfold __init__. rewrite new_block_eq. cbn [mbind option_bind].
  split; [exact E|]. split; [exact Hinv|]. split; [exact Ht|].
  intros a w Ha. destruct (H a w Ha) as [H1 H2].
  cbn [_last_values] in H1, H2. rewrite lookup_empty in H1, H2.
  split; [exact H1|exact H2].
Qed.

Lemma stored_words self a w v :
  ALL !! a = Some w → stored self a v →
  sparse_getValues (values self) a w = _pack_value v w.
Proof.
  intros Ha (w' & Ha' & _ & Hg). rewrite Ha in Ha'. injection Ha' as <-.
  exact Hg.
Qed.

Lemma getValues_lookup (m : gmap Z Z) address count ws (i : nat) x :
  sparse_getValues m address count = Some ws → ws !! i = Some x →
  m !! (address + Z.of_nat i) = Some x.
Proof.
  unfold sparse_getValues. intros Hg Hi. apply mapM_Some in Hg.
  destruct (Forall2_lookup_r _ _ _ _ _ Hg Hi) as (k & Hk & Hx).
  apply lookup_seqZ in Hk as [-> _]. exact Hx.
Qed.

Lemma getValues_one (m : gmap Z Z) k x :
  m !! k = Some x → sparse_getValues m k 1 = Some [x].
Proof.
  intros H. unfold sparse_getValues.
  rewrite seqZ_cons by lia. rewrite seqZ_nil by lia.
  cbn [mapM]. rewrite H. reflexivity.
Qed.

Lemma getValues_two (m : gmap Z Z) k x y :
  m !! k = Some x → m !! (k + 1) = Some y →
  sparse_getValues m k 2 = Some [x; y].
Proof.
  intros H1 H2. unfold sparse_getValues.
  rewrite seqZ_cons by lia. rewrite seqZ_cons by lia. rewrite seqZ_nil by lia.
  cbn [mapM]. replace (Z.succ k) with (k + 1) by lia.
  rewrite H1, H2. reflexivity.
Qed.

End run_facts.

(** Closes [fits x 2] for a number [x] that evaluates. *)
Ltac fits_now := vm_compute; split; [discriminate|reflexivity].


(** ** Properties of the codec and of the freshly built block *)

(** C7.  For each of the widths 1, 2 and 4 and every signed integer [v] of
    [16 * w] bits, [_pack_value] returns [w] words and decoding them gives
    [v] back. *)
Theorem unpack_pack_roundtrip (w v : Z) :
  w = 1 ∨ w = 2 ∨ w = 4 →
  - 2 ^ (16 * w - 1) <= v < 2 ^ (16 * w - 1) →
  ∃ words, _pack_value v w = Some words ∧
           Z.of_nat (length words) = w ∧ unpack words = v.
Proof. intros Hw Hv. by apply pack_value_spec. Qed.

Lemma unpack_pack_roundtrip_witness :
  (4 = 1 ∨ 4 = 2 ∨ 4 = 4) ∧
  - 2 ^ (16 * 4 - 1) <= - 2 ^ 63 < 2 ^ (16 * 4 - 1) ∧
  ∃ words, _pack_value (- 2 ^ 63) 4 = Some words ∧
           Z.of_nat (length words) = 4 ∧ unpack words = - 2 ^ 63.
Proof.
  split; [right; right; reflexivity|]. split; [lia|].
  apply (unpack_pack_roundtrip 4 (- 2 ^ 63)); [right; right; reflexivity|lia].
Defined.

(** The boundary values of the three widths. *)
Example roundtrip_boundaries :
  Forall (λ '(v, w), unpack <$> _pack_value v w = Some v)
    [ (-32768, 1); (32767, 1); (0, 1); (-1, 1);
      (-2147483648, 2); (2147483647, 2); (0, 2); (-1, 2);
      (-9223372036854775808, 4); (9223372036854775807, 4); (0, 4); (-1, 4) ].
Proof. repeat constructor. Qed.

(** C6.  The block as the constructor builds it, before any tick: each
    catalog address with limits [[lo, hi]] holds [floor((lo + hi) / 2)],
    each other catalog address holds 0, and the word slots of the address
    are the words [_pack_value] gives for that value. *)
Theorem initial_values_are_midpoints (start_time : Q) (addr w : Z) :
  ALL !! addr = Some w →
  let v := match REGISTER_LIMITS !! addr with
           | Some (lo, hi) => (lo + hi) / 2
           | None => 0
           end in
  ∃ self words,
    new_block _INITIAL_REGISTER_VALUES start_time = Some self ∧
    _last_values self = ∅ ∧
    _pack_value v w = Some words ∧
    sparse_getValues (values self) addr w = Some words ∧
    logical_value self addr = Some v.
Proof.
  intros Ha v. fold (initial_value addr) in v.
  pose proof (new_block_value start_time addr w Ha) as Hval.
  pose proof (forallb_map_to_list _ _ _ _ initial_slots_words_ok Ha) as Hw.
  cbn [fst snd] in Hw. apply bool_decide_eq_true in Hw.
  unfold logical_value, _ALL_REGISTERS in Hval. rewrite Ha in Hval.
  cbn [mbind option_bind values] in Hval.
  destruct (sparse_getValues initial_slots addr w) as [words|] eqn:Hg; [|done].
  exists (Block initial_slots ∅ start_time), words.
  split; [apply new_block_eq|]. split; [done|]. split; [done|].
  split; [done|].
  unfold logical_value, _ALL_REGISTERS. rewrite Ha. cbn [mbind option_bind values].
  rewrite Hg. exact Hval.
Qed.

Lemma initial_values_are_midpoints_witness :
  ALL !! 50526 = Some 2 ∧
  ∃ self words,
    new_block _INITIAL_REGISTER_VALUES 0 = Some self ∧
    _last_values self = ∅ ∧
    _pack_value 5000 2 = Some words ∧
    sparse_getValues (values self) 50526 2 = Some words ∧
    logical_value self 50526 = Some 5000.
Proof.
  split; [vm_compute; reflexivity|].
  apply (initial_values_are_midpoints 0 50526 2). vm_compute; reflexivity.
Defined.

(** ** Invariants of the ticks *)

(** C5.  From the block the constructor builds, after any number of ticks
    with any draws, every address with configured limits [[lo, hi]] holds a
    logical value between [lo] and [hi]; and the ticks do return whenever
    their hour-meter values fit. *)
Theorem bounded_values_stay_in_limits
    (start_time : Q) (ticks : list (Q * (Z → Z)))
    (b0 b : A40HoldingRegistersDataBlock) (addr lo hi : Z) :
  new_block _INITIAL_REGISTER_VALUES start_time = Some b0 →
  run ticks b0 = Some b →
  REGISTER_LIMITS !! addr = Some (lo, hi) →
  ∃ v, logical_value b addr = Some v ∧ lo <= v <= hi.
Proof.
  intros H0 Hrun Hlim. rewrite new_block_eq in H0. injection H0 as <-.
  pose proof (limits_in_catalog _ _ Hlim) as Ha.
  pose proof (limits_of_bounded _ _ _ Hlim) as Hl.
  destruct (run_inv _ _ _ (new_block_inv start_time) Hrun)
    as (Hinv & _ & _ & Hticked & Hnil).
  destruct ticks as [|t ticks].
  - rewrite (Hnil eq_refl), (new_block_value _ _ _ Ha).
    eexists. split; [done|]. unfold initial_value. rewrite Hlim.
    destruct (catalog_entry _ _ Ha) as (_ & _ & _ & Hle).
    rewrite Hl in Hle. cbn [fst snd] in Hle.
    Z.to_euclidean_division_equations. lia.
  - destruct (Hticked ltac:(done) addr 2 Ha) as (v & Hlv & Hval).
    exists v. split; [exact (stored_logical _ _ _ Hval)|].
    destruct Hinv as [_ Hin].
    destruct (Hin addr v Hlv) as [_ Hb]. rewrite Hl in Hb. exact Hb.
Qed.

Lemma bounded_values_stay_in_limits_witness :
  let ticks := [(40%Q, λ _ : Z, 10); (80%Q, λ _ : Z, 10); (120%Q, λ _ : Z, 60)] in
  let b0 := Block initial_slots ∅ 0 in
  let b := default b0 (run ticks b0) in
  new_block _INITIAL_REGISTER_VALUES 0 = Some b0 ∧
  run ticks b0 = Some b ∧
  REGISTER_LIMITS !! 50526 = Some (3000, 7000) ∧
  ∃ v, logical_value b 50526 = Some v ∧ 3000 <= v <= 7000.
Proof.
  intros ticks b0 b.
  assert (new_block _INITIAL_REGISTER_VALUES 0 = Some b0) as H0
    by apply new_block_eq.
  assert (run ticks b0 = Some b) as H1
    by (apply returns_default; vm_compute; reflexivity).
  assert (REGISTER_LIMITS !! 50526 = Some (3000, 7000)) as H2
    by (vm_compute; reflexivity).
  split; [exact H0|]. split; [exact H1|]. split; [exact H2|].
  exact (bounded_values_stay_in_limits 0 ticks b0 b 50526 3000 7000 H0 H1 H2).
Defined.

(** The ticks return whenever their hour-meter values fit two words. *)
Lemma ticks_return (start_time : Q) (ticks : list (Q * (Z → Z))) :
  clock_fits (Block initial_slots ∅ start_time) ticks →
  ∃ b, run ticks (Block initial_slots ∅ start_time) = Some b.
Proof. apply run_returns, new_block_inv. Qed.

(** C10.  A tick writes only word slots that the constructor created: an
    expanded register has exactly the [w] keys from its address on, and
    after any number of ticks the set of occupied slots, and with it the
    verdict of [validate] on any request, is the one of the fresh block. *)
Theorem ticks_keep_occupied_slots
    (start_time : Q) (ticks : list (Q * (Z → Z)))
    (b0 b : A40HoldingRegistersDataBlock)
    (addr w value : Z) (d : gmap Z Z) (address count : Z) :
  new_block _INITIAL_REGISTER_VALUES start_time = Some b0 →
  run ticks b0 = Some b →
  ALL !! addr = Some w →
  _expand_register_value addr value = Some d →
  dom d = list_to_set (seqZ addr w) ∧
  dom d ⊆ dom (values b0) ∧
  dom (values b) = dom (values b0) ∧
  sparse_validate (values b) address count
  = sparse_validate (values b0) address count.
Proof.
  intros H0 Hrun Ha He. rewrite new_block_eq in H0. injection H0 as <-.
  destruct (run_inv _ _ _ (new_block_inv start_time) Hrun) as ([Hdom _] & _).
  pose proof (expand_dom _ _ _ _ Ha He) as Hd.
  split; [done|]. split; [|split].
  - rewrite Hd. intros k Hk. apply elem_of_list_to_set, elem_of_seqZ in Hk.
    by apply (initial_slots_backed addr w).
  - done.
  - by apply validate_dom.
Qed.

Lemma ticks_keep_occupied_slots_witness :
  let ticks := [(40%Q, λ _ : Z, 10); (80%Q, λ _ : Z, 30)] in
  let b0 := Block initial_slots ∅ 0 in
  let b := default b0 (run ticks b0) in
  let d := default ∅ (_expand_register_value 0xC550 2) in
  new_block _INITIAL_REGISTER_VALUES 0 = Some b0 ∧
  run ticks b0 = Some b ∧
  ALL !! 0xC550 = Some 2 ∧
  _expand_register_value 0xC550 2 = Some d ∧
  dom d = list_to_set (seqZ 0xC550 2) ∧
  dom d ⊆ dom (values b0) ∧
  dom (values b) = dom (values b0) ∧
  sparse_validate (values b) 0xC551 1 = sparse_validate (values b0) 0xC551 1.
Proof.
  intros ticks b0 b d.
  assert (new_block _INITIAL_REGISTER_VALUES 0 = Some b0) as H0
    by apply new_block_eq.
  assert (run ticks b0 = Some b) as H1
    by (apply returns_default; vm_compute; reflexivity).
  assert (ALL !! 0xC550 = Some 2) as H2 by (vm_compute; reflexivity).
  assert (_expand_register_value 0xC550 2 = Some d) as H3
    by (apply returns_default; vm_compute; reflexivity).
  split; [exact H0|]. split; [exact H1|]. split; [exact H2|].
  split; [exact H3|].
  exact (ticks_keep_occupied_slots 0 ticks b0 b 0xC550 2 2 d 0xC551 1
           H0 H1 H2 H3).
Defined.

(** ** The random walk *)

(** What one tick does to a catalog address, once the constructor has run
    its first tick: the value moves inside the limits the update uses. *)
Lemma later_tick_walk
    (start_time now0 : Q) (draws0 : Z → Z) (ticks : list (Q * (Z → Z)))
    (now : Q) (draws : Z → Z) (b0 b1 b b' : A40HoldingRegistersDataBlock)
    (addr w : Z) :
  new_block _INITIAL_REGISTER_VALUES start_time = Some b0 →
  _step now0 draws0 b0 = Some b1 →
  run ticks b1 = Some b →
  _step now draws b = Some b' →
  ALL !! addr = Some w →
  logical_value b1 addr = Some (Z.quot ((limits_of addr).1 + (limits_of addr).2) 2) ∧
  ∃ v, logical_value b addr = Some v ∧
       (limits_of addr).1 <= v <= (limits_of addr).2 ∧
       logical_value b' addr = Some (walk (draws addr) (limits_of addr) (Some v)).
Proof.
  intros H0 H1 Hrun Hstep Ha. rewrite new_block_eq in H0. injection H0 as <-.
  split; [exact (first_tick now0 draws0 start_time b1 addr w H1 Ha)|].
  destruct (step_inv _ _ _ _ (new_block_inv start_time) H1) as (Hinv1 & _ & _).
  pose proof (step_ticked _ _ _ _ (new_block_inv start_time) H1) as Htick1.
  destruct (run_inv _ _ _ Hinv1 Hrun) as (Hinv & _ & Htick & _ & _).
  exact (tick_walk now draws b b' addr w Hinv (Htick Htick1) Hstep Ha).
Qed.

(** C4, as the code has it.  For an address with configured limits
    [[lo, hi]]: the first tick, the one the constructor runs, makes no
    draw and stores the midpoint of the limits; every later tick takes the
    draw [p] of [random.randint(0,100)], an integer from 0 to 100 with both
    ends included, and stores [min(hi, v + 25)] when [p < 25],
    [max(lo, v - 25)] when [25 <= p < 50], and the last value [v] itself
    otherwise. *)
Theorem bounded_register_walk
    (start_time now0 : Q) (draws0 : Z → Z) (ticks : list (Q * (Z → Z)))
    (now : Q) (draws : Z → Z) (b0 b1 b b' : A40HoldingRegistersDataBlock)
    (addr lo hi : Z) :
  new_block _INITIAL_REGISTER_VALUES start_time = Some b0 →
  _step now0 draws0 b0 = Some b1 →
  run ticks b1 = Some b →
  _step now draws b = Some b' →
  REGISTER_LIMITS !! addr = Some (lo, hi) →
  logical_value b1 addr = Some ((lo + hi) / 2) ∧
  ∃ v, logical_value b addr = Some v ∧ lo <= v <= hi ∧
       logical_value b' addr
       = Some (if draws addr <? 25 then Z.min hi (v + 25)
               else if draws addr <? 50 then Z.max lo (v - 25)
               else v).
Proof.
  intros H0 H1 Hrun Hstep Hlim.
  pose proof (limits_in_catalog _ _ Hlim) as Ha.
  destruct (later_tick_walk _ _ _ _ _ _ _ _ _ _ _ _ H0 H1 Hrun Hstep Ha)
    as (Hfirst & v & Hv & Hin & Hv').
  rewrite (limits_of_bounded _ _ _ Hlim) in Hfirst, Hin, Hv'.
  cbn [fst snd walk] in Hfirst, Hin, Hv'.
  rewrite (limits_midpoint _ _ _ Hlim) in Hfirst.
  split; [exact Hfirst|]. exists v.
  split; [exact Hv|]. split; [exact Hin|exact Hv'].
Qed.

Lemma bounded_register_walk_witness :
  let b0 := Block initial_slots ∅ 0 in
  let b1 := default b0 (_step 0 (λ _, 10) b0) in
  let b := default b0 (run [(1%Q, λ _ : Z, 30)] b1) in
  let b' := default b0 (_step 2 (λ _, 10) b) in
  new_block _INITIAL_REGISTER_VALUES 0 = Some b0 ∧
  _step 0 (λ _, 10) b0 = Some b1 ∧
  run [(1%Q, λ _ : Z, 30)] b1 = Some b ∧
  _step 2 (λ _, 10) b = Some b' ∧
  REGISTER_LIMITS !! 50526 = Some (3000, 7000) ∧
  logical_value b1 50526 = Some ((3000 + 7000) / 2) ∧
  ∃ v, logical_value b 50526 = Some v ∧ 3000 <= v <= 7000 ∧
       logical_value b' 50526
       = Some (if 10 <? 25 then Z.min 7000 (v + 25)
               else if 10 <? 50 then Z.max 3000 (v - 25)
               else v).
Proof.
  intros b0 b1 b b'.
  assert (new_block _INITIAL_REGISTER_VALUES 0 = Some b0) as H0
    by apply new_block_eq.
  assert (_step 0 (λ _, 10) b0 = Some b1) as H1
    by (apply returns_default; vm_compute; reflexivity).
  assert (run [(1%Q, λ _ : Z, 30)] b1 = Some b) as H2
    by (apply returns_default; vm_compute; reflexivity).
  assert (_step 2 (λ _, 10) b = Some b') as H3
    by (apply returns_default; vm_compute; reflexivity).
  assert (REGISTER_LIMITS !! 50526 = Some (3000, 7000)) as H4
    by (vm_compute; reflexivity).
  split; [exact H0|]. split; [exact H1|]. split; [exact H2|].
  split; [exact H3|]. split; [exact H4|].
  exact (bounded_register_walk 0 0 (λ _, 10) [(1%Q, λ _ : Z, 30)] 2 (λ _, 10)
           b0 b1 b b' 50526 3000 7000 H0 H1 H2 H3 H4).
Defined.

(** C4 as stated fails twice.  [random.randint(0,100)] can return 100,
    which is not in [[0,100)]; the update takes it as "unchanged".  And the
    first tick of an address makes no draw: with every draw forced to 10,
    address 50520 has no last value before that tick and holds the
    midpoint 25000 after it, not 25025. *)
Lemma bounded_register_walk_counterexample :
  randint 0 100 100 ∧ ¬ (0 <= 100 < 100) ∧
  (b1 ← __init__ _INITIAL_REGISTER_VALUES 0 0 (λ _, 0);
   b2 ← _step 1 (λ _, 100) b1;
   Some (logical_value b1 50520, logical_value b2 50520))
  = Some (Some 25000, Some 25000) ∧
  (b0 ← new_block _INITIAL_REGISTER_VALUES 0;
   b1 ← _step 0 (λ _, 10) b0;
   Some (_last_values b0 !! 50520, logical_value b0 50520,
         logical_value b1 50520))
  = Some (None, Some 25000, Some 25000).
Proof.
  split; [unfold randint; lia|]. split; [lia|].
  assert (ALL !! 50520 = Some 2) as Ha by (vm_compute; reflexivity).
  assert (REGISTER_LIMITS !! 50520 = Some (0, 50000)) as Hlim
    by (vm_compute; reflexivity).
  pose proof (limits_of_bounded _ _ _ Hlim) as Hl.
  split.
  - destruct (init_spec 0 0 (λ _, 0)) as (b1 & E1 & Hinv1 & Ht1 & H1);
      [fits_now|].
    destruct (step_at b1 0 1 (λ _, 100) Hinv1 Ht1) as (b2 & E2 & _ & _ & H2);
      [fits_now|].
    rewrite E1. cbn [mbind option_bind]. rewrite E2. cbn [mbind option_bind].
    destruct (H1 50520 2 Ha) as [L1 S1]. destruct (H2 50520 2 Ha) as [_ S2].
    rewrite L1 in S2. rewrite Hl in S1, S2.
    rewrite (stored_logical _ _ _ S1), (stored_logical _ _ _ S2). reflexivity.
  - rewrite new_block_eq. cbn [mbind option_bind].
    destruct (step_at (Block initial_slots ∅ 0) 0 0 (λ _, 10)
                (new_block_inv 0) eq_refl) as (b1 & E1 & _ & _ & H1);
      [fits_now|].
    rewrite E1. cbn [mbind option_bind _last_values].
    destruct (H1 50520 2 Ha) as [_ S1]. cbn [_last_values] in S1.
    rewrite lookup_empty, Hl in S1.
    assert (logical_value (Block initial_slots ∅ 0) 50520 = Some 25000) as V0.
    { rewrite (new_block_value _ _ _ Ha). unfold initial_value.
      rewrite Hlim. reflexivity. }
    pose proof (stored_logical _ _ _ S1) as V1.
    exact (f_equal2 (λ x y, Some (∅ !! 50520, x, y)) V0 V1).
Qed.

(** C2, as the code has it.  A catalog address without configured limits,
    other than the hour meter, is walked like the others with the default
    limits [[0, 1000]]: the first tick, which the constructor runs, sets it
    to 500, and every later tick with draw [p] stores [min(1000, v + 25)]
    when [p < 25], [max(0, v - 25)] when [25 <= p < 50], and the last value
    [v] otherwise, so the value stays between 0 and 1000. *)
Theorem unbounded_register_default_walk
    (start_time now0 : Q) (draws0 : Z → Z) (ticks : list (Q * (Z → Z)))
    (now : Q) (draws : Z → Z) (b0 b1 b b' : A40HoldingRegistersDataBlock)
    (addr w : Z) :
  new_block _INITIAL_REGISTER_VALUES start_time = Some b0 →
  _step now0 draws0 b0 = Some b1 →
  run ticks b1 = Some b →
  _step now draws b = Some b' →
  ALL !! addr = Some w →
  REGISTER_LIMITS !! addr = None →
  addr ≠ _HOUR_METER →
  logical_value b0 addr = Some 0 ∧
  logical_value b1 addr = Some 500 ∧
  ∃ v, logical_value b addr = Some v ∧ 0 <= v <= 1000 ∧
       logical_value b' addr
       = Some (if draws addr <? 25 then Z.min 1000 (v + 25)
               else if draws addr <? 50 then Z.max 0 (v - 25)
               else v).
Proof.
  intros H0 H1 Hrun Hstep Ha Hlim _.
  destruct (later_tick_walk _ _ _ _ _ _ _ _ _ _ _ _ H0 H1 Hrun Hstep Ha)
    as (Hfirst & v & Hv & Hin & Hv').
  rewrite (limits_of_unbounded _ Hlim) in Hfirst, Hin, Hv'.
  cbn [fst snd walk] in Hfirst, Hin, Hv'.
  split.
  { rewrite new_block_eq in H0. injection H0 as <-.
    rewrite (new_block_value _ _ _ Ha). unfold initial_value.
    rewrite Hlim. reflexivity. }
  split; [exact Hfirst|]. exists v.
  split; [exact Hv|]. split; [exact Hin|exact Hv'].
Qed.

Lemma unbounded_register_default_walk_witness :
  let b0 := Block initial_slots ∅ 0 in
  let b1 := default b0 (_step 0 (λ _, 10) b0) in
  let b := default b0 (run [(1%Q, λ _ : Z, 30)] b1) in
  let b' := default b0 (_step 2 (λ _, 10) b) in
  new_block _INITIAL_REGISTER_VALUES 0 = Some b0 ∧
  _step 0 (λ _, 10) b0 = Some b1 ∧
  run [(1%Q, λ _ : Z, 30)] b1 = Some b ∧
  _step 2 (λ _, 10) b = Some b' ∧
  ALL !! 0xC850 = Some 1 ∧
  REGISTER_LIMITS !! 0xC850 = None ∧
  0xC850 ≠ _HOUR_METER ∧
  logical_value b0 0xC850 = Some 0 ∧
  logical_value b1 0xC850 = Some 500 ∧
  ∃ v, logical_value b 0xC850 = Some v ∧ 0 <= v <= 1000 ∧
       logical_value b' 0xC850
       = Some (if 10 <? 25 then Z.min 1000 (v + 25)
               else if 10 <? 50 then Z.max 0 (v - 25)
               else v).
Proof.
  intros b0 b1 b b'.
  assert (new_block _INITIAL_REGISTER_VALUES 0 = Some b0) as H0
    by apply new_block_eq.
  assert (_step 0 (λ _, 10) b0 = Some b1) as H1
    by (apply returns_default; vm_compute; reflexivity).
  assert (run [(1%Q, λ _ : Z, 30)] b1 = Some b) as H2
    by (apply returns_default; vm_compute; reflexivity).
  assert (_step 2 (λ _, 10) b = Some b') as H3
    by (apply returns_default; vm_compute; reflexivity).
  assert (ALL !! 0xC850 = Some 1) as H4 by (vm_compute; reflexivity).
  assert (REGISTER_LIMITS !! 0xC850 = None) as H5 by (vm_compute; reflexivity).
  assert (0xC850 ≠ _HOUR_METER) as H6 by (unfold _HOUR_METER; lia).
  split; [exact H0|]. split; [exact H1|]. split; [exact H2|].
  split; [exact H3|]. split; [exact H4|]. split; [exact H5|].
  split; [exact H6|].
  exact (unbounded_register_default_walk 0 0 (λ _, 10) [(1%Q, λ _ : Z, 30)]
           2 (λ _, 10) b0 b1 b b' 0xC850 1 H0 H1 H2 H3 H4 H5 H6).
Defined.

(** C2 as stated fails: address 0xC650 is in the catalog and has no
    configured limits; it holds 0 in the fresh block, 500 after the first
    tick, and 525 after a later tick whose draw is 10. *)
Lemma unbounded_register_counterexample :
  ALL !! 0xC650 = Some 2 ∧ REGISTER_LIMITS !! 0xC650 = None ∧
  (b0 ← new_block _INITIAL_REGISTER_VALUES 0;
   b1 ← _step 0 (λ _, 80) b0;
   b2 ← _step 1 (λ _, 10) b1;
   Some (logical_value b0 0xC650, logical_value b1 0xC650,
         logical_value b2 0xC650))
  = Some (Some 0, Some 500, Some 525) ∧
  (b1 ← __init__ _INITIAL_REGISTER_VALUES 0 0 (λ _, 80);
   b2 ← _step 1 (λ _, 10) b1;
   Some (logical_value b1 0xC650, logical_value b2 0xC650))
  = Some (Some 500, Some 525).
Proof.
  assert (ALL !! 0xC650 = Some 2) as Ha by (vm_compute; reflexivity).
  assert (REGISTER_LIMITS !! 0xC650 = None) as Hlim by (vm_compute; reflexivity).
  pose proof (limits_of_unbounded _ Hlim) as Hl.
  split; [exact Ha|]. split; [exact Hlim|]. split.
  - rewrite new_block_eq. cbn [mbind option_bind].
    destruct (step_at (Block initial_slots ∅ 0) 0 0 (λ _, 80)
                (new_block_inv 0) eq_refl) as (b1 & E1 & Hinv1 & Ht1 & H1);
      [fits_now|].
    destruct (step_at b1 0 1 (λ _, 10) Hinv1 Ht1) as (b2 & E2 & _ & _ & H2);
      [fits_now|].
    rewrite E1. cbn [mbind option_bind]. rewrite E2. cbn [mbind option_bind].
    destruct (H1 0xC650 2 Ha) as [L1 S1]. destruct (H2 0xC650 2 Ha) as [_ S2].
    rewrite L1 in S2. cbn [_last_values] in S1, S2.
    rewrite lookup_empty, Hl in S1. rewrite lookup_empty, Hl in S2.
    assert (logical_value (Block initial_slots ∅ 0) 0xC650 = Some 0) as V0.
    { rewrite (new_block_value _ _ _ Ha). unfold initial_value.
      rewrite Hlim. reflexivity. }
    pose proof (stored_logical _ _ _ S1) as V1.
    pose proof (stored_logical _ _ _ S2) as V2.
    rewrite V0, V1, V2. reflexivity.
  - destruct (init_spec 0 0 (λ _, 80)) as (b1 & E1 & Hinv1 & Ht1 & H1);
      [fits_now|].
    destruct (step_at b1 0 1 (λ _, 10) Hinv1 Ht1) as (b2 & E2 & _ & _ & H2);
      [fits_now|].
    rewrite E1. cbn [mbind option_bind]. rewrite E2. cbn [mbind option_bind].
    destruct (H1 0xC650 2 Ha) as [L1 S1]. destruct (H2 0xC650 2 Ha) as [_ S2].
    rewrite L1 in S2. rewrite Hl in S1, S2.
    rewrite (stored_logical _ _ _ S1), (stored_logical _ _ _ S2). reflexivity.
Qed.

(** C3.  Address 50520 has the limits [[0, 50000]].  It holds 25000 in the
    fresh block and still does when the constructor returns; one tick later
    it holds 25025 if the draw was 10, 24975 if the draw was 40, and 25000
    if the draw was 80. *)
Theorem scenario_50520
    (start_time now0 : Q) (draws0 : Z → Z) (now : Q) (d10 d40 d80 : Z → Z)
    (self : A40HoldingRegistersDataBlock) :
  __init__ _INITIAL_REGISTER_VALUES start_time now0 draws0 = Some self →
  hour_fits self now →
  d10 50520 = 10 → d40 50520 = 40 → d80 50520 = 80 →
  REGISTER_LIMITS !! 50520 = Some (0, 50000) ∧
  (∃ b0, new_block _INITIAL_REGISTER_VALUES start_time = Some b0 ∧
         logical_value b0 50520 = Some 25000) ∧
  logical_value self 50520 = Some 25000 ∧
  (∃ b', _step now d10 self = Some b' ∧ logical_value b' 50520 = Some 25025) ∧
  (∃ b', _step now d40 self = Some b' ∧ logical_value b' 50520 = Some 24975) ∧
  (∃ b', _step now d80 self = Some b' ∧ logical_value b' 50520 = Some 25000).
Proof.
  intros Hinit Hfit H10 H40 H80.
  assert (ALL !! 50520 = Some 2) as Ha by (vm_compute; reflexivity).
  assert (REGISTER_LIMITS !! 50520 = Some (0, 50000)) as Hlim
    by (vm_compute; reflexivity).
  pose proof (limits_of_bounded _ _ _ Hlim) as Hl.
  unfold __init__ in Hinit. rewrite new_block_eq in Hinit.
  cbn [mbind option_bind] in Hinit.
  destruct (step_inv _ _ _ _ (new_block_inv start_time) Hinit) as (Hinv & _ & H).
  destruct (H 50520 2 Ha) as [Hlast Hval]. cbn [_last_values] in Hlast, Hval.
  rewrite lookup_empty, Hl in Hlast, Hval.
  change (walk (draws0 50520) (0, 50000) None) with 25000 in Hlast, Hval.
  split; [exact Hlim|]. split.
  { eexists. split; [apply new_block_eq|].
    rewrite (new_block_value _ _ _ Ha). unfold initial_value.
    rewrite Hlim. reflexivity. }
  split; [exact (stored_logical _ _ _ Hval)|].
  assert (∀ draws p, draws 50520 = p →
            ∃ b', _step now draws self = Some b' ∧
                  logical_value b' 50520 = Some (walk p (0, 50000) (Some 25000)))
    as Hstep.
  { intros draws p Hp.
    destruct (step_spec now draws self Hinv Hfit) as (b' & Hrun & _ & _ & H').
    exists b'. split; [exact Hrun|]. destruct (H' 50520 2 Ha) as [_ Hv].
    rewrite Hlast, Hl, Hp in Hv. exact (stored_logical _ _ _ Hv). }
  split; [exact (Hstep d10 10 H10)|].
  split; [exact (Hstep d40 40 H40)|exact (Hstep d80 80 H80)].
Qed.

Lemma scenario_50520_witness :
  let b0 := Block initial_slots ∅ 0 in
  let self := default b0 (__init__ _INITIAL_REGISTER_VALUES 0 0 (λ _, 0)) in
  __init__ _INITIAL_REGISTER_VALUES 0 0 (λ _, 0) = Some self ∧
  hour_fits self 1 ∧
  (λ _ : Z, 10) 50520 = 10 ∧ (λ _ : Z, 40) 50520 = 40 ∧
  (λ _ : Z, 80) 50520 = 80 ∧
  REGISTER_LIMITS !! 50520 = Some (0, 50000) ∧
  (∃ b0, new_block _INITIAL_REGISTER_VALUES 0 = Some b0 ∧
         logical_value b0 50520 = Some 25000) ∧
  logical_value self 50520 = Some 25000 ∧
  (∃ b', _step 1 (λ _, 10) self = Some b' ∧
         logical_value b' 50520 = Some 25025) ∧
  (∃ b', _step 1 (λ _, 40) self = Some b' ∧
         logical_value b' 50520 = Some 24975) ∧
  (∃ b', _step 1 (λ _, 80) self = Some b' ∧
         logical_value b' 50520 = Some 25000).
Proof.
  intros b0 self.
  assert (__init__ _INITIAL_REGISTER_VALUES 0 0 (λ _, 0) = Some self) as H0
    by (apply returns_default; vm_compute; reflexivity).
  assert (hour_fits self 1) as H1 by (vm_compute; split; [discriminate|reflexivity]).
  split; [exact H0|]. split; [exact H1|].
  split; [reflexivity|]. split; [reflexivity|]. split; [reflexivity|].
  exact (scenario_50520 0 0 (λ _, 0) 1 (λ _, 10) (λ _, 40) (λ _, 80) self
           H0 H1 eq_refl eq_refl eq_refl).
Defined.

(** ** The hour meter *)

(** Whatever the clock says, a tick leaves in the hour meter what the walk
    computed for its address, with the default limits. *)
Lemma hour_meter_walks now draws (b b' : A40HoldingRegistersDataBlock) :
  block_inv b → _step now draws b = Some b' →
  logical_value b' _HOUR_METER
  = Some (walk (draws _HOUR_METER) (0, 1000) (_last_values b !! _HOUR_METER)).
Proof.
  intros Hinv Hrun. destruct (step_inv _ _ _ _ Hinv Hrun) as (_ & _ & H).
  destruct (H _HOUR_METER 2 hour_meter_in_catalog) as [_ Hv].
  assert (limits_of _HOUR_METER = (0, 1000)) as E
    by (apply limits_of_unbounded; vm_compute; reflexivity).
  rewrite E in Hv. exact (stored_logical _ _ _ Hv).
Qed.

(** C1 fails on the code.  The constructor's tick, at elapsed time 0, leaves
    500 in the hour meter instead of 0; a tick 72 seconds after the start
    with the draw 40 leaves 475, where [int(72 / 36)] is 2, and the value
    went down. *)
Theorem hour_meter_is_overwritten :
  (b1 ← __init__ _INITIAL_REGISTER_VALUES 0 0 (λ _, 40);
   b2 ← _step 72 (λ _, 40) b1;
   Some (diris_time b1 0, logical_value b1 _HOUR_METER,
         diris_time b1 72, logical_value b2 _HOUR_METER))
  = Some (0, Some 500, 2, Some 475).
Proof.
  assert (limits_of _HOUR_METER = (0, 1000)) as Hl
    by (apply limits_of_unbounded; vm_compute; reflexivity).
  destruct (init_spec 0 0 (λ _, 40)) as (b1 & E1 & Hinv1 & Ht1 & H1);
    [fits_now|].
  destruct (step_at b1 0 72 (λ _, 40) Hinv1 Ht1) as (b2 & E2 & _ & _ & H2);
    [fits_now|].
  rewrite E1. cbn [mbind option_bind]. rewrite E2. cbn [mbind option_bind].
  destruct (H1 _HOUR_METER 2 hour_meter_in_catalog) as [L1 S1].
  destruct (H2 _HOUR_METER 2 hour_meter_in_catalog) as [_ S2].
  rewrite L1 in S2. rewrite Hl in S1, S2.
  rewrite (stored_logical _ _ _ S1), (stored_logical _ _ _ S2).
  unfold diris_time. rewrite Ht1. reflexivity.
Qed.

(** ** The slave context *)

(** C8.  For a function code that [decode] maps to a store, [validate],
    [getValues] and [setValues] of the context are those of that store at
    the very address of the request: no offset is added. *)
Theorem context_passes_address_through
    (self : A40SlaveContext) (fx address count : Z) (new : list Z)
    (key : family) :
  decode fx = Some key →
  validate self fx address count
  = Some (block_validate (store self key) address count) ∧
  getValues self fx address count
  = block_getValues (store self key) address count ∧
  setValues self fx address new
  = set_store self key <$> block_setValues (store self key) address new.
Proof.
  intros Hkey. unfold validate, getValues, setValues. rewrite Hkey.
  cbn [mbind option_bind].
  split; [reflexivity|]. split; [reflexivity|].
  destruct (block_setValues (store self key) address new); reflexivity.
Qed.

Lemma context_passes_address_through_witness :
  let stub := SequentialBlock (Sequential 0 [1]) in
  let self := SlaveContext stub stub stub
                (HoldingBlock (Block initial_slots ∅ 0)) in
  decode 3 = Some fam_h ∧
  validate self 3 0xC551 1
  = Some (block_validate (store self fam_h) 0xC551 1) ∧
  getValues self 3 0xC551 1 = block_getValues (store self fam_h) 0xC551 1 ∧
  setValues self 3 0xC551 [9]
  = set_store self fam_h <$> block_setValues (store self fam_h) 0xC551 [9].
Proof.
  intros stub self. split; [reflexivity|].
  apply (context_passes_address_through self 3 0xC551 1 [9] fam_h).
  reflexivity.
Defined.

(** For the holding registers this reads: a request at [address] is checked
    against, and served from, the word slots [address], [address + 1], ...
    themselves. *)
Lemma holding_request_unshifted
    (self : A40SlaveContext) (h : A40HoldingRegistersDataBlock)
    (fx address count : Z) :
  decode fx = Some fam_h → hr self = HoldingBlock h →
  validate self fx address count
  = Some (forallb (λ a, bool_decide (is_Some (values h !! a)))
                  (seqZ address count)) ∧
  getValues self fx address count
  = mapM (λ a, values h !! a) (seqZ address count).
Proof.
  intros Hkey Hh. unfold validate, getValues. rewrite Hkey.
  cbn [mbind option_bind store]. rewrite Hh. split; reflexivity.
Qed.

(** The context [create] returns: its holding block has the slots of a
    fresh block, and the hour-meter register holds the words 0 and 500. *)
Lemma create_spec start_time now draws :
  fits (py_int ((now - start_time) / 36)%Q) 2 →
  ∃ h, create start_time now draws
       = Some (SlaveContext (SequentialBlock (Sequential 0 [1]))
                            (SequentialBlock (Sequential 0 [1]))
                            (SequentialBlock (Sequential 0 [1]))
                            (HoldingBlock h)) ∧
    dom (values h) = dom initial_slots ∧
    values h !! 0xC550 = Some 0 ∧ values h !! 0xC551 = Some 500.
Proof.
  intros Hfit.
  destruct (init_spec start_time now draws Hfit) as (h & E & Hinv & _ & H).
  exists h. unfold create. rewrite E. cbn [mbind option_bind].
  split; [reflexivity|]. split; [exact (proj1 Hinv)|].
  destruct (H _HOUR_METER 2 hour_meter_in_catalog) as [_ S].
  assert (limits_of _HOUR_METER = (0, 1000)) as Hl
    by (apply limits_of_unbounded; vm_compute; reflexivity).
  rewrite Hl in S. pose proof (stored_words _ _ _ _ hour_meter_in_catalog S) as Hg.
  change (_pack_value (Z.quot ((0, 1000).1 + (0, 1000).2) 2) 2)
    with (Some [0; 500]) in Hg.
  split.
  - exact (getValues_lookup _ _ _ _ 0 0 Hg eq_refl).
  - exact (getValues_lookup _ _ _ _ 1 500 Hg eq_refl).
Qed.

(** The second word of the two-word register at 0xC550 can be read on its
    own: after the constructor it is the low word of 500. *)
Example read_second_word :
  (ctx ← create 0 0 (λ _, 0);
   ok ← validate ctx 3 0xC551 1;
   ws ← getValues ctx 3 0xC551 1;
   Some (ok, ws)) = Some (true, [500]).
Proof.
  destruct (create_spec 0 0 (λ _, 0)) as (h & E & Hdom & H0 & H1); [fits_now|].
  rewrite E. cbn [mbind option_bind].
  unfold validate, getValues. change (decode 3) with (Some fam_h).
  cbn [mbind option_bind store hr block_validate block_getValues].
  rewrite (validate_dom _ _ _ _ Hdom).
  assert (sparse_validate initial_slots 0xC551 1 = true) as ->
    by (vm_compute; reflexivity).
  cbn [mbind option_bind]. rewrite (getValues_one _ _ _ H1). reflexivity.
Qed.

(** C9, as the code has it.  A write to the holding registers is never
    refused for its length: [setValues] stores the [len(new)] words in the
    slots from [address] on, whatever the widths of the registers there,
    and leaves every other slot as it was. *)
Theorem write_is_unchecked
    (self : A40SlaveContext) (h : A40HoldingRegistersDataBlock)
    (fx address : Z) (new : list Z) (k : Z) :
  decode fx = Some fam_h →
  hr self = HoldingBlock h →
  ¬ (address <= k < address + Z.of_nat (length new)) →
  let slots := sparse_setValues (values h) address new in
  setValues self fx address new
  = Some (set_store self fam_h
            (HoldingBlock (Block slots (_last_values h) (_start_time h)))) ∧
  sparse_getValues slots address (Z.of_nat (length new)) = Some new ∧
  slots !! k = values h !! k.
Proof.
  intros Hkey Hh Hk slots. split; [|split].
  - unfold setValues. rewrite Hkey. cbn [mbind option_bind store].
    rewrite Hh. reflexivity.
  - apply getValues_setValues.
  - apply setValues_other. exact Hk.
Qed.

Lemma write_is_unchecked_witness :
  let stub := SequentialBlock (Sequential 0 [1]) in
  let h := Block initial_slots ∅ 0 in
  let self := SlaveContext stub stub stub (HoldingBlock h) in
  let slots := sparse_setValues (values h) 0xC550 [7] in
  decode 6 = Some fam_h ∧
  hr self = HoldingBlock h ∧
  ¬ (0xC550 <= 0xC551 < 0xC550 + Z.of_nat (length [7])) ∧
  setValues self 6 0xC550 [7]
  = Some (set_store self fam_h
            (HoldingBlock (Block slots (_last_values h) (_start_time h)))) ∧
  sparse_getValues slots 0xC550 (Z.of_nat (length [7])) = Some [7] ∧
  slots !! 0xC551 = values h !! 0xC551.
Proof.
  intros stub h self slots.
  assert (¬ (0xC550 <= 0xC551 < 0xC550 + Z.of_nat (length [7]))) as Hk
    by (cbn; lia).
  split; [reflexivity|]. split; [reflexivity|]. split; [exact Hk|].
  exact (write_is_unchecked self h 6 0xC550 [7] 0xC551 eq_refl eq_refl Hk).
Defined.

(** C9 as stated fails: 0xC550 is a register of two words, and a write of
    the single word 7 there is accepted; it replaces the first word of the
    register and keeps the second. *)
Lemma write_is_unchecked_counterexample :
  ALL !! 0xC550 = Some 2 ∧ length [7] = 1%nat ∧
  (ctx ← create 0 0 (λ _, 0);
   before ← getValues ctx 3 0xC550 2;
   ctx' ← setValues ctx 6 0xC550 [7];
   after ← getValues ctx' 3 0xC550 2;
   Some (before, after)) = Some ([0; 500], [7; 500]).
Proof.
  split; [vm_compute; reflexivity|]. split; [reflexivity|].
  destruct (create_spec 0 0 (λ _, 0)) as (h & E & Hdom & H0 & H1); [fits_now|].
  rewrite E. cbn [mbind option_bind].
  unfold getValues, setValues.
  change (decode 3) with (Some fam_h). change (decode 6) with (Some fam_h).
  cbn [mbind option_bind store hr block_getValues block_setValues set_store].
  rewrite (getValues_two _ _ _ _ H0 H1). cbn [mbind option_bind values].
  rewrite (getValues_two _ _ 7 500); [reflexivity| |].
  - unfold sparse_setValues. rewrite enumerate_store_lookup.
    rewrite decide_True by (cbn; lia). reflexivity.
  - rewrite setValues_other by (cbn; lia). exact H1.
Qed.

(** ** More on the codec *)

Section pack_facts.

Lemma pack_value_None_fits value width :
  ¬ fits value width → _pack_value value width = None.
Proof.
  intros H. unfold _pack_value, _REGISTER_TYPES.
  assert (∀ f, Z.of_nat (calcsize f) = 2 * width →
               struct_pack f value = None) as Hs.
  { intros f Hf. unfold struct_pack, fits in *.
    replace (8 * Z.of_nat (calcsize f)) with (16 * width) by lia.
    destruct (Z.leb_spec (- 2 ^ (16 * width - 1)) value);
      destruct (Z.ltb_spec value (2 ^ (16 * width - 1)));
      try reflexivity.
    lia. }
  destruct (Z.eqb_spec width 1) as [->|];
    [cbn [mbind option_bind]; rewrite (Hs fmt_h eq_refl); reflexivity|].
  destruct (Z.eqb_spec width 2) as [->|];
    [cbn [mbind option_bind]; rewrite (Hs fmt_i eq_refl); reflexivity|].
  destruct (Z.eqb_spec width 4) as [->|];
    [cbn [mbind option_bind]; rewrite (Hs fmt_q eq_refl); reflexivity|].
  reflexivity.
Qed.

Lemma be_bytes_range n u : Forall (λ b, 0 <= b < 256) (be_bytes n u).
Proof.
  revert u. induction n as [|n IH]; intros u; [constructor|].
  cbn [be_bytes]. apply Forall_app. split; [apply IH|].
  constructor; [|constructor]. apply Z.mod_pos_bound. lia.
Qed.

Lemma words_of_bytes_range bs :
  Forall (λ b, 0 <= b < 256) bs →
  Forall (λ x, 0 <= x < 65536) (words_of_bytes bs).
Proof.
  revert bs. fix IH 1. intros [|hi [|lo rest]] H; [constructor|constructor|].
  cbn [words_of_bytes].
  apply Forall_cons in H as [Hhi H]. apply Forall_cons in H as [Hlo H].
  constructor; [lia|]. apply IH. exact H.
Qed.

(** The words [_pack_value] returns, for a supported width and a value
    that fits. *)
Lemma pack_value_words value width words :
  _pack_value value width = Some words →
  (width = 1 ∨ width = 2 ∨ width = 4) ∧ fits value width ∧
  words = words_of_bytes
            (be_bytes (Z.to_nat (2 * width)) (value mod 2 ^ (16 * width))).
Proof.
  intros Hp.
  destruct (decide (width = 1 ∨ width = 2 ∨ width = 4)) as [Hw|Hw];
    [|rewrite (pack_value_None_width _ _ Hw) in Hp; discriminate].
  destruct (decide (- 2 ^ (16 * width - 1) <= value < 2 ^ (16 * width - 1)))
    as [Hv|Hv]; [|rewrite (pack_value_None_fits _ _ Hv) in Hp; discriminate].
  split; [exact Hw|]. split; [exact Hv|].
  assert (∃ f, _REGISTER_TYPES width = Some f ∧
               Z.of_nat (calcsize f) = 2 * width) as (f & Hf & Hsz).
  { destruct Hw as [->|[->| ->]]; eexists; split; reflexivity. }
  rewrite (pack_value_eq _ _ _ Hf Hsz Hv) in Hp. injection Hp as <-.
  replace (Z.to_nat (2 * width)) with (calcsize f) by lia. reflexivity.
Qed.

Lemma pack_value_length value width words :
  _pack_value value width = Some words → Z.of_nat (length words) = width.
Proof.
  intros Hp. destruct (pack_value_words _ _ _ Hp) as (Hw & Hv & ->).
  rewrite (words_of_bytes_length _ (Z.to_nat width)); [lia|].
  rewrite be_bytes_length. lia.
Qed.

End pack_facts.

(** X1.  [_pack_value] returns exactly for the widths 1, 2 and 4 and the
    values that are signed integers of [16 * width] bits; the [KeyError] of
    any other width and the [struct.error] of any other value are the only
    failures. *)
Theorem pack_value_returns_iff (value width : Z) :
  is_Some (_pack_value value width)
  ↔ (width = 1 ∨ width = 2 ∨ width = 4) ∧
    - 2 ^ (16 * width - 1) <= value < 2 ^ (16 * width - 1).
Proof.
  split.
  - intros [words Hp]. destruct (pack_value_words _ _ _ Hp) as (Hw & Hv & _).
    split; [exact Hw|exact Hv].
  - intros [Hw Hv]. destruct (pack_value_spec value width Hw Hv) as (ws & Hp & _).
    exists ws. exact Hp.
Qed.

(** X2.  What [_pack_value] returns is a list of [width] words, each an
    unsigned 16-bit number. *)
Theorem pack_value_words_are_16_bit (value width : Z) (words : list Z) :
  _pack_value value width = Some words →
  Z.of_nat (length words) = width ∧ Forall (λ x, 0 <= x < 65536) words.
Proof.
  intros Hp. split; [exact (pack_value_length _ _ _ Hp)|].
  destruct (pack_value_words _ _ _ Hp) as (Hw & Hv & ->).
  apply words_of_bytes_range, be_bytes_range.
Qed.

Lemma pack_value_words_are_16_bit_witness :
  _pack_value (-2) 2 = Some [65535; 65534] ∧
  Z.of_nat (length [65535; 65534]) = 2 ∧
  Forall (λ x, 0 <= x < 65536) [65535; 65534].
Proof.
  split; [reflexivity|].
  apply (pack_value_words_are_16_bit (-2) 2 [65535; 65534]). reflexivity.
Defined.

(** X3.  The words are the digits in base 65536, most significant first, of
    the two's complement of the value: read as one number they are the
    value modulo [2 ^ (16 * width)]. *)
Theorem pack_value_big_endian (value width : Z) (words : list Z) :
  _pack_value value width = Some words →
  foldl (λ acc x, acc * 65536 + x) 0 words = value mod 2 ^ (16 * width).
Proof.
  intros Hp. destruct (pack_value_words _ _ _ Hp) as (Hw & Hv & ->).
  set (bs := be_bytes _ _).
  assert (length bs = (2 * Z.to_nat width)%nat) as Hlen.
  { unfold bs. rewrite be_bytes_length. lia. }
  rewrite (foldl_words _ _ _ Hlen).
  change (foldl _ 0 bs) with (from_be bs). unfold bs. rewrite from_be_bytes.
  replace (256 ^ Z.of_nat (Z.to_nat (2 * width))) with (2 ^ (16 * width)).
  2:{ change 256 with (2 ^ 8). rewrite <- Z.pow_mul_r by lia. f_equal. lia. }
  apply Z.mod_mod. apply Z.pow_nonzero; lia.
Qed.

Lemma pack_value_big_endian_witness :
  _pack_value (-2) 2 = Some [65535; 65534] ∧
  foldl (λ acc x, acc * 65536 + x) 0 [65535; 65534] = (-2) mod 2 ^ (16 * 2).
Proof.
  split; [reflexivity|].
  apply (pack_value_big_endian (-2) 2 [65535; 65534]). reflexivity.
Defined.

(** X4.  Two values that [_pack_value] turns into the same words of the
    same width are equal. *)
Theorem pack_value_injective (v1 v2 width : Z) (words : list Z) :
  _pack_value v1 width = Some words →
  _pack_value v2 width = Some words →
  v1 = v2.
Proof.
  intros H1 H2.
  destruct (pack_value_words _ _ _ H1) as (Hw & Hv1 & _).
  destruct (pack_value_words _ _ _ H2) as (_ & Hv2 & _).
  destruct (pack_value_spec v1 width Hw Hv1) as (ws1 & Hp1 & _ & Hu1).
  destruct (pack_value_spec v2 width Hw Hv2) as (ws2 & Hp2 & _ & Hu2).
  rewrite H1 in Hp1. rewrite H2 in Hp2.
  injection Hp1 as <-. injection Hp2 as <-. rewrite <- Hu1. exact Hu2.
Qed.

Lemma pack_value_injective_witness :
  _pack_value 7 1 = Some [7] ∧ _pack_value 7 1 = Some [7] ∧ 7 = 7.
Proof.
  split; [reflexivity|]. split; [reflexivity|].
  apply (pack_value_injective 7 7 1 [7]); reflexivity.
Defined.

(** ** Blocks are determined by their last values *)

Section canonical_facts.

Implicit Types (self b : A40HoldingRegistersDataBlock).

Lemma initial_slots_covered_ok :
  forallb (λ e : Z * Z,
             bool_decide (is_Some (ALL !! e.1)) ||
             bool_decide (ALL !! (e.1 - 1) = Some 2))
          (map_to_list initial_slots) = true.
Proof. vm_compute. reflexivity. Qed.

(** Every slot of a fresh block is a word of some catalog register. *)
Lemma initial_slots_covered k :
  k ∈ dom initial_slots → ∃ a w, ALL !! a = Some w ∧ a <= k < a + w.
Proof.
  intros Hk. apply elem_of_dom in Hk as [x Hx].
  pose proof (forallb_map_to_list _ _ _ _ initial_slots_covered_ok Hx) as E.
  cbn [fst] in E. apply orb_prop in E as [E|E]; apply bool_decide_eq_true in E.
  - destruct E as [w Hw]. exists k, w. split; [exact Hw|].
    destruct (catalog_entry _ _ Hw) as (Hw' & _). lia.
  - exists (k - 1), 2. split; [exact E|lia].
Qed.

Lemma stored_lookup self a w v k :
  ALL !! a = Some w → stored self a v → a <= k < a + w →
  ∃ words, _pack_value v w = Some words ∧
           values self !! k = words !! Z.to_nat (k - a).
Proof.
  intros Ha (w' & Ha' & Hfit & Hg) Hk. rewrite Ha in Ha'. injection Ha' as <-.
  destruct (catalog_entry _ _ Ha) as (Hw & _).
  destruct (pack_value_spec v w) as (words & Hp & Hl & _); [lia|exact Hfit|].
  exists words. split; [exact Hp|]. rewrite Hp in Hg.
  destruct (lookup_lt_is_Some_2 words (Z.to_nat (k - a))) as [x Hx]; [lia|].
  rewrite Hx. rewrite <- (getValues_lookup _ _ _ _ _ _ Hg Hx). f_equal. lia.
Qed.

(** Two blocks that went through a tick, with the same last values and the
    same start time, are the same block. *)
Lemma block_ext b1 b2 :
  block_inv b1 → block_inv b2 → ticked b1 → ticked b2 →
  _last_values b1 = _last_values b2 → _start_time b1 = _start_time b2 →
  b1 = b2.
Proof.
  intros [Hd1 _] [Hd2 _] Ht1 Ht2 Hl Hs.
  assert (values b1 = values b2) as Hv.
  { apply map_eq. intros k.
    assert (k ∈ dom (values b1) →
            values b1 !! k = values b2 !! k) as Hin.
    { intros Hk. rewrite Hd1 in Hk.
      destruct (initial_slots_covered k Hk) as (a & w & Ha & Hr).
      destruct (Ht1 a w Ha) as (v1 & L1 & S1).
      destruct (Ht2 a w Ha) as (v2 & L2 & S2).
      rewrite Hl, L2 in L1. injection L1 as <-.
      destruct (stored_lookup _ _ _ _ k Ha S1 Hr) as (ws1 & P1 & ->).
      destruct (stored_lookup _ _ _ _ k Ha S2 Hr) as (ws2 & P2 & ->).
      rewrite P1 in P2. injection P2 as <-. reflexivity. }
    destruct (values b1 !! k) as [x|] eqn:E1.
    - apply Hin. apply elem_of_dom. exists x. exact E1.
    - symmetry. apply not_elem_of_dom. rewrite Hd2, <- Hd1.
      apply not_elem_of_dom. exact E1. }
  destruct b1, b2. cbn [values _last_values _start_time] in Hv, Hl, Hs.
  rewrite Hv, Hl, Hs. reflexivity.
Qed.

(** After the loop of a tick over addresses that cover the catalog, the
    last values are those the walk computed, and nothing else. *)
Lemma last_values_ext b1 b2 (f : Z → Z) :
  block_inv b1 → block_inv b2 →
  (∀ a w, ALL !! a = Some w → _last_values b1 !! a = Some (f a)) →
  (∀ a w, ALL !! a = Some w → _last_values b2 !! a = Some (f a)) →
  _last_values b1 = _last_values b2.
Proof.
  intros [_ H1] [_ H2] F1 F2. apply map_eq. intros a.
  destruct (ALL !! a) as [w|] eqn:Ha.
  - rewrite (F1 a w Ha), (F2 a w Ha). reflexivity.
  - destruct (_last_values b1 !! a) as [v1|] eqn:E1.
    { destruct (H1 a v1 E1) as [[w Hw] _]. rewrite Ha in Hw. discriminate. }
    destruct (_last_values b2 !! a) as [v2|] eqn:E2; [|reflexivity].
    destruct (H2 a v2 E2) as [[w Hw] _]. rewrite Ha in Hw. discriminate.
Qed.

(** Two ticks that compute the same value at every catalog address end in
    the same block. *)
Lemma step_result_ext now1 now2 draws1 draws2 b1 b2 b1' b2' :
  block_inv b1 → block_inv b2 →
  _start_time b1 = _start_time b2 →
  _step now1 draws1 b1 = Some b1' → _step now2 draws2 b2 = Some b2' →
  (∀ a w, ALL !! a = Some w →
     walk (draws1 a) (limits_of a) (_last_values b1 !! a)
     = walk (draws2 a) (limits_of a) (_last_values b2 !! a)) →
  b1' = b2'.
Proof.
  intros Hi1 Hi2 Hs E1 E2 Hw.
  destruct (step_inv _ _ _ _ Hi1 E1) as (Hi1' & Hs1 & H1).
  destruct (step_inv _ _ _ _ Hi2 E2) as (Hi2' & Hs2 & H2).
  apply block_ext.
  - exact Hi1'.
  - exact Hi2'.
  - exact (step_ticked _ _ _ _ Hi1 E1).
  - exact (step_ticked _ _ _ _ Hi2 E2).
  - apply (last_values_ext _ _
             (λ a, walk (draws1 a) (limits_of a) (_last_values b1 !! a)));
      [exact Hi1'|exact Hi2'| |].
    + intros a w Ha. exact (proj1 (H1 a w Ha)).
    + intros a w Ha. rewrite (Hw a w Ha). exact (proj1 (H2 a w Ha)).
  - rewrite Hs1, Hs2. exact Hs.
Qed.

(** The blocks the constructor and the ticks can produce. *)
Lemma reachable_inv start_time now0 draws0 ticks b0 b1 b :
  new_block _INITIAL_REGISTER_VALUES start_time = Some b0 →
  _step now0 draws0 b0 = Some b1 →
  run ticks b1 = Some b →
  block_inv b ∧ ticked b ∧ _start_time b = start_time.
Proof.
  intros H0 H1 Hrun. rewrite new_block_eq in H0. injection H0 as <-.
  destruct (step_inv _ _ _ _ (new_block_inv start_time) H1) as (Hinv1 & Hs1 & _).
  pose proof (step_ticked _ _ _ _ (new_block_inv start_time) H1) as Htick1.
  destruct (run_inv _ _ _ Hinv1 Hrun) as (Hinv & Hs & Htick & _ & _).
  split; [exact Hinv|]. split; [exact (Htick Htick1)|].
  rewrite Hs. exact Hs1.
Qed.

End canonical_facts.

(** ** More on the catalog and on expanded registers *)

(** X5.  [_expand_register_value] returns exactly for the catalog addresses
    and the values that fit the width of the address: the assertion fails
    for any other address, [struct.pack] raises for any other value. *)
Theorem expand_returns_iff (addr value : Z) :
  is_Some (_expand_register_value addr value)
  ↔ ∃ w, ALL !! addr = Some w ∧
         - 2 ^ (16 * w - 1) <= value < 2 ^ (16 * w - 1).
Proof.
  split.
  - intros [d Hd]. unfold _expand_register_value, _ALL_REGISTERS in Hd.
    destruct (ALL !! addr) as [w|] eqn:Ha; [|discriminate Hd].
    cbn [mbind option_bind] in Hd.
    destruct (_pack_value value w) as [words|] eqn:Hp; [|discriminate Hd].
    exists w. split; [reflexivity|].
    exact (proj1 (proj2 (pack_value_words _ _ _ Hp))).
  - intros (w & Ha & Hv).
    destruct (expand_spec addr w value Ha Hv) as (words & _ & _ & _ & He).
    eexists. exact He.
Qed.

(** X6.  The dict [_expand_register_value] returns maps the address and the
    addresses that follow to the words of the value, in order, and has no
    other key. *)
Theorem expand_contents (addr w value : Z) (d : gmap Z Z) (k : Z) :
  ALL !! addr = Some w →
  _expand_register_value addr value = Some d →
  ∃ words, _pack_value value w = Some words ∧
    d !! k = if decide (addr <= k < addr + w)
             then words !! Z.to_nat (k - addr) else None.
Proof.
  intros Ha Hd. unfold _expand_register_value, _ALL_REGISTERS in Hd.
  rewrite Ha in Hd. cbn [mbind option_bind] in Hd.
  destruct (_pack_value value w) as [words|] eqn:Hp; [|discriminate Hd].
  cbn [mbind option_bind] in Hd. injection Hd as <-.
  exists words. split; [reflexivity|].
  rewrite enumerate_store_lookup, (pack_value_length _ _ _ Hp), !Z.add_0_r.
  rewrite Z.sub_0_r, lookup_empty. reflexivity.
Qed.

Lemma expand_contents_witness :
  let d := default ∅ (_expand_register_value 0xC550 500) in
  ALL !! 0xC550 = Some 2 ∧
  _expand_register_value 0xC550 500 = Some d ∧
  ∃ words, _pack_value 500 2 = Some words ∧
    d !! 0xC551 = if decide (0xC550 <= 0xC551 < 0xC550 + 2)
                  then words !! Z.to_nat (0xC551 - 0xC550) else None.
Proof.
  intros d.
  assert (ALL !! 0xC550 = Some 2) as H0 by (vm_compute; reflexivity).
  assert (_expand_register_value 0xC550 500 = Some d) as H1
    by (apply returns_default; vm_compute; reflexivity).
  split; [exact H0|]. split; [exact H1|].
  exact (expand_contents 0xC550 2 500 d 0xC551 H0 H1).
Defined.

(** X7.  No word slot belongs to two registers of the catalog. *)
Theorem catalog_registers_disjoint (a w a' w' k : Z) :
  ALL !! a = Some w → ALL !! a' = Some w' → a ≠ a' →
  a <= k < a + w → ¬ (a' <= k < a' + w').
Proof.
  intros Ha Ha' Hne Hk Hk'.
  destruct (catalog_disjoint _ _ _ _ Ha Ha' Hne); lia.
Qed.

Lemma catalog_registers_disjoint_witness :
  ALL !! 0xC78E = Some 2 ∧ ALL !! 0xC790 = Some 1 ∧ 0xC78E ≠ 0xC790 ∧
  0xC78E <= 0xC78F < 0xC78E + 2 ∧ ¬ (0xC790 <= 0xC78F < 0xC790 + 1).
Proof.
  assert (ALL !! 0xC78E = Some 2) as H0 by (vm_compute; reflexivity).
  assert (ALL !! 0xC790 = Some 1) as H1 by (vm_compute; reflexivity).
  assert (0xC78E ≠ 0xC790) as H2 by lia.
  assert (0xC78E <= 0xC78F < 0xC78E + 2) as H3 by lia.
  split; [exact H0|]. split; [exact H1|]. split; [exact H2|].
  split; [exact H3|].
  exact (catalog_registers_disjoint 0xC78E 2 0xC790 1 0xC78F H0 H1 H2 H3).
Defined.

(** X8.  Every entry of [REGISTER_LIMITS] is for a two-word register of the
    catalog; its limits are ordered and fit the two words, and the two
    midpoints the code computes, [int(sum(limits)/2)] and
    [int(sum(limits)/2.0)], agree and lie between the limits. *)
Theorem limits_are_well_formed (addr lo hi : Z) :
  REGISTER_LIMITS !! addr = Some (lo, hi) →
  ALL !! addr = Some 2 ∧
  - 2 ^ 31 <= lo ∧ lo <= hi ∧ hi < 2 ^ 31 ∧
  Z.quot (lo + hi) 2 = (lo + hi) / 2 ∧
  lo <= (lo + hi) / 2 <= hi.
Proof.
  intros Hlim. pose proof (limits_in_catalog _ _ Hlim) as Ha.
  destruct (catalog_entry _ _ Ha) as (_ & Hlo & Hhi & Hle).
  rewrite (limits_of_bounded _ _ _ Hlim) in Hlo, Hhi, Hle.
  cbn [fst snd] in Hlo, Hhi, Hle. unfold fits in Hlo, Hhi.
  change (16 * 2 - 1) with 31 in Hlo, Hhi.
  pose proof (limits_midpoint _ _ _ Hlim) as Hm.
  pose proof (midpoint_between lo hi Hle) as Hb. rewrite Hm in Hb.
  split; [exact Ha|]. split; [lia|]. split; [exact Hle|]. split; [lia|].
  split; [exact Hm|exact Hb].
Qed.

Lemma limits_are_well_formed_witness :
  REGISTER_LIMITS !! 50562 = Some (-1000, 1000) ∧
  ALL !! 50562 = Some 2 ∧
  - 2 ^ 31 <= -1000 ∧ -1000 <= 1000 ∧ 1000 < 2 ^ 31 ∧
  Z.quot (-1000 + 1000) 2 = (-1000 + 1000) / 2 ∧
  -1000 <= (-1000 + 1000) / 2 <= 1000.
Proof.
  assert (REGISTER_LIMITS !! 50562 = Some (-1000, 1000)) as H0
    by (vm_compute; reflexivity).
  split; [exact H0|].
  exact (limits_are_well_formed 50562 (-1000) 1000 H0).
Defined.

(** ** More on the ticks *)

Section tick_facts.

Implicit Types (self b : A40HoldingRegistersDataBlock).


Lemma fresh_run_inv start_time ticks b0 b :
  new_block _INITIAL_REGISTER_VALUES start_time = Some b0 →
  run ticks b0 = Some b →
  block_inv b ∧ _start_time b = start_time.
Proof.
  intros H0 Hrun. rewrite new_block_eq in H0. injection H0 as <-.
  destruct (run_inv _ _ _ (new_block_inv start_time) Hrun) as (Hinv & Hs & _).
  split; [exact Hinv|exact Hs].
Qed.

Lemma written_inv b address new :
  block_inv b →
  sparse_validate (values b) address (Z.of_nat (length new)) = true →
  block_inv (written b address new).
Proof.
  intros [Hdom Hlast] Hv. split; [|exact Hlast].
  unfold written. cbn [values]. rewrite setValues_dom, <- Hdom.
  apply subseteq_union_1_L. intros k Hk.
  apply elem_of_list_to_set, elem_of_seqZ in Hk.
  exact (proj1 (validate_spec _ _ _) Hv k Hk).
Qed.

End tick_facts.

(** X9.  A tick of a block that the constructor and earlier ticks produced
    returns exactly when [int(elapsed_time / 36)] is a signed integer of 32
    bits; otherwise [struct.pack] raises on the hour meter.  No draw and no
    register value can make a tick fail. *)
Theorem tick_returns_iff
    (start_time : Q) (ticks : list (Q * (Z → Z)))
    (b0 b : A40HoldingRegistersDataBlock) (now : Q) (draws : Z → Z) :
  new_block _INITIAL_REGISTER_VALUES start_time = Some b0 →
  run ticks b0 = Some b →
  (is_Some (_step now draws b)
   ↔ - 2 ^ 31 <= py_int ((now - start_time) / 36)%Q < 2 ^ 31).
Proof.
  intros H0 Hrun. destruct (fresh_run_inv _ _ _ _ H0 Hrun) as [Hinv Hs].
  split.
  - intros [b' Hb'].
    destruct (decide (- 2 ^ 31 <= py_int ((now - start_time) / 36)%Q < 2 ^ 31))
      as [H|H]; [exact H|].
    rewrite step_raises in Hb'; [discriminate Hb'|].
    unfold hour_fits, diris_time. rewrite Hs. exact H.
  - intros H. destruct (step_at b start_time now draws Hinv Hs H) as (b' & E & _).
    exists b'. exact E.
Qed.

Lemma tick_returns_iff_witness :
  let b0 := Block initial_slots ∅ 0 in
  new_block _INITIAL_REGISTER_VALUES 0 = Some b0 ∧
  run [] b0 = Some b0 ∧
  (is_Some (_step 72 (λ _, 10) b0)
   ↔ - 2 ^ 31 <= py_int ((72 - 0) / 36)%Q < 2 ^ 31).
Proof.
  intros b0.
  assert (new_block _INITIAL_REGISTER_VALUES 0 = Some b0) as H0
    by apply new_block_eq.
  split; [exact H0|]. split; [reflexivity|].
  exact (tick_returns_iff 0 [] b0 b0 72 (λ _, 10) H0 eq_refl).
Defined.



(** X11.  Once the constructor has run, a tick moves the logical value of a
    catalog register by 25 at most, up or down. *)
Theorem tick_moves_at_most_25
    (start_time now0 : Q) (draws0 : Z → Z) (ticks : list (Q * (Z → Z)))
    (now : Q) (draws : Z → Z) (b0 b1 b b' : A40HoldingRegistersDataBlock)
    (addr w : Z) :
  new_block _INITIAL_REGISTER_VALUES start_time = Some b0 →
  _step now0 draws0 b0 = Some b1 →
  run ticks b1 = Some b →
  _step now draws b = Some b' →
  ALL !! addr = Some w →
  ∃ v v', logical_value b addr = Some v ∧ logical_value b' addr = Some v' ∧
          -25 <= v' - v <= 25.
Proof.
  intros H0 H1 Hrun Hstep Ha.
  destruct (later_tick_walk _ _ _ _ _ _ _ _ _ _ _ _ H0 H1 Hrun Hstep Ha)
    as (_ & v & Hv & Hin & Hv').
  exists v, (walk (draws addr) (limits_of addr) (Some v)).
  split; [exact Hv|]. split; [exact Hv'|].
  unfold walk. destruct (draws addr <? 25); [lia|].
  destruct (draws addr <? 50); lia.
Qed.

Lemma tick_moves_at_most_25_witness :
  let b0 := Block initial_slots ∅ 0 in
  let b1 := default b0 (_step 0 (λ _, 10) b0) in
  let b' := default b0 (_step 2 (λ _, 30) b1) in
  new_block _INITIAL_REGISTER_VALUES 0 = Some b0 ∧
  _step 0 (λ _, 10) b0 = Some b1 ∧
  run [] b1 = Some b1 ∧
  _step 2 (λ _, 30) b1 = Some b' ∧
  ALL !! 0xC900 = Some 1 ∧
  ∃ v v', logical_value b1 0xC900 = Some v ∧
          logical_value b' 0xC900 = Some v' ∧ -25 <= v' - v <= 25.
Proof.
  intros b0 b1 b'.
  assert (new_block _INITIAL_REGISTER_VALUES 0 = Some b0) as H0
    by apply new_block_eq.
  assert (_step 0 (λ _, 10) b0 = Some b1) as H1
    by (apply returns_default; vm_compute; reflexivity).
  assert (_step 2 (λ _, 30) b1 = Some b') as H3
    by (apply returns_default; vm_compute; reflexivity).
  assert (ALL !! 0xC900 = Some 1) as H4 by (vm_compute; reflexivity).
  split; [exact H0|]. split; [exact H1|]. split; [reflexivity|].
  split; [exact H3|]. split; [exact H4|].
  exact (tick_moves_at_most_25 0 0 (λ _, 10) [] 2 (λ _, 30) b0 b1 b1 b'
           0xC900 1 H0 H1 eq_refl H3 H4).
Defined.

(** X12.  A tick in which every draw is 50 or more changes nothing: the
    block after it is the block before it, hour meter included. *)
Theorem tick_without_move
    (start_time now0 : Q) (draws0 : Z → Z) (ticks : list (Q * (Z → Z)))
    (now : Q) (draws : Z → Z) (b0 b1 b : A40HoldingRegistersDataBlock) :
  new_block _INITIAL_REGISTER_VALUES start_time = Some b0 →
  _step now0 draws0 b0 = Some b1 →
  run ticks b1 = Some b →
  (∀ a, 50 <= draws a) →
  - 2 ^ 31 <= py_int ((now - start_time) / 36)%Q < 2 ^ 31 →
  _step now draws b = Some b.
Proof.
  intros H0 H1 Hrun Hdraws Hfit.
  destruct (reachable_inv _ _ _ _ _ _ _ H0 H1 Hrun) as (Hinv & Htick & Hs).
  destruct (step_at b start_time now draws Hinv Hs Hfit)
    as (b' & E & Hinv' & Hs' & H).
  rewrite E. f_equal. apply block_ext.
  - exact Hinv'.
  - exact Hinv.
  - exact (step_ticked _ _ _ _ Hinv E).
  - exact Htick.
  - apply (last_values_ext _ _
             (λ a, walk (draws a) (limits_of a) (_last_values b !! a)));
      [exact Hinv'|exact Hinv| |].
    + intros a w Ha. exact (proj1 (H a w Ha)).
    + intros a w Ha. destruct (Htick a w Ha) as (v & Hv & _).
      rewrite Hv. unfold walk. specialize (Hdraws a).
      destruct (Z.ltb_spec (draws a) 25); [lia|].
      destruct (Z.ltb_spec (draws a) 50); [lia|]. reflexivity.
  - rewrite Hs', Hs. reflexivity.
Qed.

Lemma tick_without_move_witness :
  let b0 := Block initial_slots ∅ 0 in
  let b1 := default b0 (_step 0 (λ _, 10) b0) in
  new_block _INITIAL_REGISTER_VALUES 0 = Some b0 ∧
  _step 0 (λ _, 10) b0 = Some b1 ∧
  run [] b1 = Some b1 ∧
  (∀ a : Z, 50 <= (λ _ : Z, 80) a) ∧
  - 2 ^ 31 <= py_int ((72 - 0) / 36)%Q < 2 ^ 31 ∧
  _step 72 (λ _, 80) b1 = Some b1.
Proof.
  intros b0 b1.
  assert (new_block _INITIAL_REGISTER_VALUES 0 = Some b0) as H0
    by apply new_block_eq.
  assert (_step 0 (λ _, 10) b0 = Some b1) as H1
    by (apply returns_default; vm_compute; reflexivity).
  assert (∀ a : Z, 50 <= (λ _ : Z, 80) a) as H3 by (intros _; lia).
  assert (- 2 ^ 31 <= py_int ((72 - 0) / 36)%Q < 2 ^ 31) as H4 by fits_now.
  split; [exact H0|]. split; [exact H1|]. split; [reflexivity|].
  split; [exact H3|]. split; [exact H4|].
  exact (tick_without_move 0 0 (λ _, 10) [] 72 (λ _, 80) b0 b1 b1
           H0 H1 eq_refl H3 H4).
Defined.

(** ** The store between the ticks *)

(** X13.  What a client writes into backed slots of the holding registers
    does not survive the next tick: the tick after the write ends in the
    same block as the tick without it, since every catalog register is
    rewritten from its last value. *)
Theorem client_write_is_overwritten
    (start_time : Q) (ticks : list (Q * (Z → Z)))
    (b0 b : A40HoldingRegistersDataBlock)
    (address : Z) (new : list Z) (now : Q) (draws : Z → Z) :
  new_block _INITIAL_REGISTER_VALUES start_time = Some b0 →
  run ticks b0 = Some b →
  sparse_validate (values b) address (Z.of_nat (length new)) = true →
  _step now draws (written b address new) = _step now draws b.
Proof.
  intros H0 Hrun Hv. destruct (fresh_run_inv _ _ _ _ H0 Hrun) as [Hinv Hs].
  pose proof (written_inv b address new Hinv Hv) as Hinvw.
  destruct (decide (- 2 ^ (16 * 2 - 1) <= diris_time b now < 2 ^ (16 * 2 - 1)))
    as [Hfit|Hfit].
  - destruct (step_spec now draws b Hinv Hfit) as (b' & E & _).
    destruct (step_spec now draws (written b address new) Hinvw Hfit)
      as (bw' & Ew & _).
    rewrite E, Ew. f_equal.
    apply (step_result_ext now now draws draws (written b address new) b);
      [exact Hinvw|exact Hinv|reflexivity|exact Ew|exact E|].
    intros a w Ha. reflexivity.
  - rewrite (step_raises now draws b Hfit).
    apply step_raises. exact Hfit.
Qed.

Lemma client_write_is_overwritten_witness :
  let b0 := Block initial_slots ∅ 0 in
  new_block _INITIAL_REGISTER_VALUES 0 = Some b0 ∧
  run [] b0 = Some b0 ∧
  sparse_validate (values b0) 0xC850 (Z.of_nat (length [123])) = true ∧
  _step 40 (λ _, 10) (written b0 0xC850 [123]) = _step 40 (λ _, 10) b0.
Proof.
  intros b0.
  assert (new_block _INITIAL_REGISTER_VALUES 0 = Some b0) as H0
    by apply new_block_eq.
  assert (sparse_validate (values b0) 0xC850 (Z.of_nat (length [123])) = true)
    as H2 by (vm_compute; reflexivity).
  split; [exact H0|]. split; [reflexivity|]. split; [exact H2|].
  exact (client_write_is_overwritten 0 [] b0 b0 0xC850 [123] 40 (λ _, 10)
           H0 eq_refl H2).
Defined.

(** X14.  Once the constructor has run, the last values are kept for the
    catalog addresses and for no other, and the store agrees with them: the
    word slots of every catalog register are the words of its last
    value. *)
Theorem store_matches_last_values
    (start_time now0 : Q) (draws0 : Z → Z) (ticks : list (Q * (Z → Z)))
    (b0 b1 b : A40HoldingRegistersDataBlock) (addr w : Z) :
  new_block _INITIAL_REGISTER_VALUES start_time = Some b0 →
  _step now0 draws0 b0 = Some b1 →
  run ticks b1 = Some b →
  ALL !! addr = Some w →
  dom (_last_values b) = dom ALL ∧
  ∃ v, _last_values b !! addr = Some v ∧
       sparse_getValues (values b) addr w = _pack_value v w ∧
       logical_value b addr = Some v.
Proof.
  intros H0 H1 Hrun Ha.
  destruct (reachable_inv _ _ _ _ _ _ _ H0 H1 Hrun) as (Hinv & Htick & _).
  split.
  - apply set_eq. intros a. rewrite !elem_of_dom. split.
    + intros [v Hv]. exact (proj1 (proj2 Hinv a v Hv)).
    + intros [w' Hw']. destruct (Htick a w' Hw') as (v & Hv & _).
      exists v. exact Hv.
  - destruct (Htick addr w Ha) as (v & Hv & Hst). exists v.
    split; [exact Hv|]. split; [exact (stored_words _ _ _ _ Ha Hst)|].
    exact (stored_logical _ _ _ Hst).
Qed.

Lemma store_matches_last_values_witness :
  let b0 := Block initial_slots ∅ 0 in
  let b1 := default b0 (_step 0 (λ _, 10) b0) in
  new_block _INITIAL_REGISTER_VALUES 0 = Some b0 ∧
  _step 0 (λ _, 10) b0 = Some b1 ∧
  run [] b1 = Some b1 ∧
  ALL !! 0xC550 = Some 2 ∧
  dom (_last_values b1) = dom ALL ∧
  ∃ v, _last_values b1 !! 0xC550 = Some v ∧
       sparse_getValues (values b1) 0xC550 2 = _pack_value v 2 ∧
       logical_value b1 0xC550 = Some v.
Proof.
  intros b0 b1.
  assert (new_block _INITIAL_REGISTER_VALUES 0 = Some b0) as H0
    by apply new_block_eq.
  assert (_step 0 (λ _, 10) b0 = Some b1) as H1
    by (apply returns_default; vm_compute; reflexivity).
  assert (ALL !! 0xC550 = Some 2) as H3 by (vm_compute; reflexivity).
  split; [exact H0|]. split; [exact H1|]. split; [reflexivity|].
  split; [exact H3|].
  exact (store_matches_last_values 0 0 (λ _, 10) [] b0 b1 b1 0xC550 2
           H0 H1 eq_refl H3).
Defined.

(** X15.  The word slots of the store are those of the catalog registers,
    no more and no less, whatever ticks have run; so [validate] accepts a
    request exactly when every word it names is a word of a catalog
    register. *)
Theorem occupied_slots_are_catalog_slots
    (start_time : Q) (ticks : list (Q * (Z → Z)))
    (b0 b : A40HoldingRegistersDataBlock) (k address count : Z) :
  new_block _INITIAL_REGISTER_VALUES start_time = Some b0 →
  run ticks b0 = Some b →
  (k ∈ dom (values b) ↔ ∃ a w, ALL !! a = Some w ∧ a <= k < a + w) ∧
  (sparse_validate (values b) address count = true
   ↔ ∀ j, address <= j < address + count →
          ∃ a w, ALL !! a = Some w ∧ a <= j < a + w).
Proof.
  intros H0 Hrun. destruct (fresh_run_inv _ _ _ _ H0 Hrun) as [[Hdom _] _].
  assert (∀ j, j ∈ dom (values b) ↔ ∃ a w, ALL !! a = Some w ∧ a <= j < a + w)
    as Hslots.
  { intros j. rewrite Hdom. split.
    - apply initial_slots_covered.
    - intros (a & w & Ha & Hj). exact (initial_slots_backed a w j Ha Hj). }
  split; [apply Hslots|].
  rewrite validate_spec. split.
  - intros H j Hj. apply Hslots. exact (H j Hj).
  - intros H j Hj. apply Hslots. exact (H j Hj).
Qed.

Lemma occupied_slots_are_catalog_slots_witness :
  let b0 := Block initial_slots ∅ 0 in
  new_block _INITIAL_REGISTER_VALUES 0 = Some b0 ∧
  run [] b0 = Some b0 ∧
  (0xC58D ∈ dom (values b0)
   ↔ ∃ a w, ALL !! a = Some w ∧ a <= 0xC58D < a + w) ∧
  (sparse_validate (values b0) 0xC58D 2 = true
   ↔ ∀ j, 0xC58D <= j < 0xC58D + 2 →
          ∃ a w, ALL !! a = Some w ∧ a <= j < a + w).
Proof.
  intros b0.
  assert (new_block _INITIAL_REGISTER_VALUES 0 = Some b0) as H0
    by apply new_block_eq.
  split; [exact H0|]. split; [reflexivity|].
  exact (occupied_slots_are_catalog_slots 0 [] b0 b0 0xC58D 0xC58D 2
           H0 eq_refl).
Defined.

(** X16.  The block the constructor returns does not depend on the random
    generator: its tick makes no draw. *)
Theorem constructor_ignores_draws (start_time now : Q) (d1 d2 : Z → Z) :
  __init__ _INITIAL_REGISTER_VALUES start_time now d1
  = __init__ _INITIAL_REGISTER_VALUES start_time now d2.
Proof.
  unfold __init__. rewrite new_block_eq. cbn [mbind option_bind].
  set (b0 := Block initial_slots ∅ start_time).
  pose proof (new_block_inv start_time) as Hinv. fold b0 in Hinv.
  destruct (decide (- 2 ^ (16 * 2 - 1) <= diris_time b0 now < 2 ^ (16 * 2 - 1)))
    as [Hfit|Hfit].
  - destruct (step_spec now d1 b0 Hinv Hfit) as (b1 & E1 & _).
    destruct (step_spec now d2 b0 Hinv Hfit) as (b2 & E2 & _).
    rewrite E1, E2. f_equal.
    apply (step_result_ext now now d1 d2 b0 b0);
      [exact Hinv|exact Hinv|reflexivity|exact E1|exact E2|].
    intros a w Ha. unfold b0. cbn [_last_values]. rewrite lookup_empty.
    reflexivity.
  - rewrite (step_raises now d1 b0 Hfit). symmetry.
    apply step_raises. exact Hfit.
Qed.

(** X17.  Through the context, the words written to the holding registers
    at an address are the words read back from that address, and the
    request then validates, also where no slot existed before; the other
    three stores are left as they were. *)
Theorem holding_write_then_read
    (self : A40SlaveContext) (h : A40HoldingRegistersDataBlock)
    (fx fx' address : Z) (new : list Z) :
  decode fx = Some fam_h → decode fx' = Some fam_h →
  hr self = HoldingBlock h →
  ∃ self', setValues self fx address new = Some self' ∧
    getValues self' fx' address (Z.of_nat (length new)) = Some new ∧
    validate self' fx' address (Z.of_nat (length new)) = Some true ∧
    di self' = di self ∧ co self' = co self ∧ ir self' = ir self.
Proof.
  intros Hfx Hfx' Hh.
  exists (set_store self fam_h (HoldingBlock (written h address new))).
  unfold setValues, getValues, validate. rewrite Hfx, Hfx'.
  cbn [mbind option_bind store set_store hr]. rewrite Hh.
  cbn [block_setValues block_getValues block_validate mbind option_bind
       values written].
  split; [reflexivity|]. split; [apply getValues_setValues|].
  split; [|repeat split].
  f_equal. apply validate_spec. intros k Hk.
  rewrite setValues_dom. apply elem_of_union. left.
  apply elem_of_list_to_set, elem_of_seqZ. exact Hk.
Qed.

Lemma holding_write_then_read_witness :
  let stub := SequentialBlock (Sequential 0 [1]) in
  let h := Block initial_slots ∅ 0 in
  let self := SlaveContext stub stub stub (HoldingBlock h) in
  decode 16 = Some fam_h ∧ decode 3 = Some fam_h ∧
  hr self = HoldingBlock h ∧
  ∃ self', setValues self 16 7 [1; 2] = Some self' ∧
    getValues self' 3 7 (Z.of_nat (length [1; 2])) = Some [1; 2] ∧
    validate self' 3 7 (Z.of_nat (length [1; 2])) = Some true ∧
    di self' = di self ∧ co self' = co self ∧ ir self' = ir self.
Proof.
  intros stub h self.
  split; [reflexivity|]. split; [reflexivity|]. split; [reflexivity|].
  exact (holding_write_then_read self h 16 3 7 [1; 2] eq_refl eq_refl eq_refl).
Defined.

(** ** The constructor on any initial values *)

Section constructor_facts.

Lemma expand_Some_fits addr w value d :
  ALL !! addr = Some w → _expand_register_value addr value = Some d →
  fits value w.
Proof.
  intros Ha Hd. unfold _expand_register_value, _ALL_REGISTERS in Hd.
  rewrite Ha in Hd. cbn [mbind option_bind] in Hd.
  destruct (_pack_value value w) as [words|] eqn:Hp; [|discriminate Hd].
  exact (proj1 (proj2 (pack_value_words _ _ _ Hp))).
Qed.

Lemma fits_zero w : w = 1 ∨ w = 2 → fits 0 w.
Proof. intros [->| ->]; vm_compute; (split; [discriminate|reflexivity]). Qed.

(** The loop of the constructor: every address of the list ends up with the
    words of its value, the other registers keep theirs. *)
Lemma expand_all_spec (vals : gmap Z Z) ks (acc : gmap Z Z) :
  NoDup ks →
  (∀ k, k ∈ ks → ∃ w, ALL !! k = Some w ∧ fits (default 0 (vals !! k)) w) →
  ∃ m, expand_all vals ks acc = Some m ∧
    (∀ a w, ALL !! a = Some w → a ∈ ks →
       sparse_getValues m a w = _pack_value (default 0 (vals !! a)) w) ∧
    (∀ a w, ALL !! a = Some w → a ∉ ks →
       sparse_getValues m a w = sparse_getValues acc a w).
Proof.
  intros Hnd. revert acc.
  induction Hnd as [|k ks Hk Hnd IH]; intros acc Hfit.
  - exists acc. split; [reflexivity|]. split.
    + intros a w _ Ha. apply elem_of_nil in Ha. destruct Ha.
    + intros a w _ _. reflexivity.
  - destruct (Hfit k) as (w & Hw & Hv); [apply list_elem_of_here|].
    destruct (expand_spec k w _ Hw Hv) as (words & Hp & Hl & _ & He).
    destruct (IH (sparse_setValues acc k words)) as (m & Hm & Hin & Hout).
    { intros k' Hk'. apply Hfit. apply list_elem_of_further. exact Hk'. }
    exists m. split.
    { cbn [expand_all]. rewrite He. cbn [mbind option_bind].
      change (enumerate_store k 0 words ∅ ∪ acc)
        with (sparse_setValues_dict acc (enumerate_store k 0 words ∅)).
      rewrite setValues_dict_list. exact Hm. }
    split.
    + intros a w' Ha Hel. apply elem_of_cons in Hel as [->|Hel].
      * rewrite Hw in Ha. injection Ha as <-.
        rewrite (Hout k w Hw Hk), Hp, <- Hl. apply getValues_setValues.
      * exact (Hin a w' Ha Hel).
    + intros a w' Ha Hnot. apply not_elem_of_cons in Hnot as [Hne Hnot].
      rewrite (Hout a w' Ha Hnot). apply getValues_ext. intros j Hj.
      apply setValues_other.
      destruct (catalog_disjoint _ _ _ _ Hw Ha (not_eq_sym Hne)); lia.
Qed.

Lemma expand_all_Some (vals : gmap Z Z) ks (acc m : gmap Z Z) k :
  expand_all vals ks acc = Some m → k ∈ ks →
  is_Some (_expand_register_value k (default 0 (vals !! k))).
Proof.
  revert acc. induction ks as [|k' ks IH]; intros acc Hm Hk.
  - apply elem_of_nil in Hk. destruct Hk.
  - cbn [expand_all] in Hm.
    destruct (_expand_register_value k' (default 0 (vals !! k'))) as [d|] eqn:He;
      [|discriminate Hm].
    cbn [mbind option_bind] in Hm.
    apply elem_of_cons in Hk as [->|Hk]; [exists d; exact He|].
    exact (IH _ Hm Hk).
Qed.

(** The constructor returns on initial values that fit. *)
Lemma constructor_stores_values_aux (vals : gmap Z Z) start_time :
  dom vals ⊆ dom ALL →
  (∀ a w' v, ALL !! a = Some w' → vals !! a = Some v → fits v w') →
  ∃ self, new_block vals start_time = Some self.
Proof.
  intros Hdom Hfit.
  destruct (expand_all_spec vals (keys ALL) ∅) as (m & Hm & _);
    [apply NoDup_fst_map_to_list| |].
  { intros k Hk. apply elem_of_keys in Hk as [wk Hwk]. exists wk.
    split; [exact Hwk|]. destruct (vals !! k) as [v|] eqn:Hv.
    - exact (Hfit k wk v Hwk Hv).
    - apply fits_zero. exact (proj1 (catalog_entry _ _ Hwk)). }
  exists (Block m ∅ start_time). unfold new_block, _ALL_REGISTERS.
  rewrite (bool_decide_eq_true_2 _ Hdom), Hm. reflexivity.
Qed.

End constructor_facts.

(** X18.  Given initial values for catalog addresses only, each fitting the
    width of its register, the constructor builds a block in which every
    catalog register holds the words of [values.get(addr, 0)], and which
    has no last value yet. *)
Theorem constructor_stores_values
    (vals : gmap Z Z) (start_time : Q) (addr w : Z) :
  dom vals ⊆ dom ALL →
  (∀ a w' v, ALL !! a = Some w' → vals !! a = Some v →
             - 2 ^ (16 * w' - 1) <= v < 2 ^ (16 * w' - 1)) →
  ALL !! addr = Some w →
  ∃ self, new_block vals start_time = Some self ∧
    _last_values self = ∅ ∧ _start_time self = start_time ∧
    sparse_getValues (values self) addr w
    = _pack_value (default 0 (vals !! addr)) w ∧
    logical_value self addr = Some (default 0 (vals !! addr)).
Proof.
  intros Hdom Hfit Ha.
  assert (∀ k, k ∈ keys ALL →
            ∃ w, ALL !! k = Some w ∧ fits (default 0 (vals !! k)) w) as Hall.
  { intros k Hk. apply elem_of_keys in Hk as [wk Hwk]. exists wk.
    split; [exact Hwk|]. destruct (vals !! k) as [v|] eqn:Hv.
    - exact (Hfit k wk v Hwk Hv).
    - apply fits_zero. exact (proj1 (catalog_entry _ _ Hwk)). }
  destruct (expand_all_spec vals (keys ALL) ∅) as (m & Hm & Hin & _);
    [apply NoDup_fst_map_to_list|exact Hall|].
  exists (Block m ∅ start_time).
  assert (addr ∈ keys ALL) as Hk by (apply elem_of_keys; exists w; exact Ha).
  pose proof (Hin addr w Ha Hk) as Hg.
  split.
  { unfold new_block, _ALL_REGISTERS.
    rewrite (bool_decide_eq_true_2 _ Hdom), Hm. reflexivity. }
  split; [reflexivity|]. split; [reflexivity|]. split; [exact Hg|].
  apply stored_logical. exists w. split; [exact Ha|].
  destruct (Hall addr Hk) as (w' & Ha' & Hf). rewrite Ha in Ha'.
  injection Ha' as <-. split; [exact Hf|exact Hg].
Qed.

Lemma constructor_stores_values_witness :
  let vals : gmap Z Z := {[ 0xC850 := -7 ]} in
  dom vals ⊆ dom ALL ∧
  (∀ a w' v, ALL !! a = Some w' → vals !! a = Some v →
             - 2 ^ (16 * w' - 1) <= v < 2 ^ (16 * w' - 1)) ∧
  ALL !! 0xC850 = Some 1 ∧
  ∃ self, new_block vals 0 = Some self ∧
    _last_values self = ∅ ∧ _start_time self = 0%Q ∧
    sparse_getValues (values self) 0xC850 1
    = _pack_value (default 0 (vals !! 0xC850)) 1 ∧
    logical_value self 0xC850 = Some (default 0 (vals !! 0xC850)).
Proof.
  intros vals.
  assert (ALL !! 0xC850 = Some 1) as H2 by (vm_compute; reflexivity).
  assert (dom vals ⊆ dom ALL) as H0.
  { intros a Ha. unfold vals in Ha. rewrite dom_singleton_L in Ha.
    apply elem_of_singleton in Ha. rewrite Ha.
    apply elem_of_dom. exists 1. exact H2. }
  assert (∀ a w' v, ALL !! a = Some w' → vals !! a = Some v →
                    - 2 ^ (16 * w' - 1) <= v < 2 ^ (16 * w' - 1)) as H1.
  { intros a w' v Ha Hv. unfold vals in Hv.
    apply lookup_singleton_Some in Hv as [<- <-].
    rewrite H2 in Ha. injection Ha as <-.
    vm_compute. split; [discriminate|reflexivity]. }
  split; [exact H0|]. split; [exact H1|]. split; [exact H2|].
  exact (constructor_stores_values vals 0 0xC850 1 H0 H1 H2).
Defined.

(** X19.  The constructor returns exactly when the keys of the initial
    values are catalog addresses and every value fits the width of its
    register; it fails on the assertion otherwise, or on [struct.pack]. *)
Theorem constructor_returns_iff (vals : gmap Z Z) (start_time : Q) :
  is_Some (new_block vals start_time)
  ↔ dom vals ⊆ dom ALL ∧
    ∀ a w v, ALL !! a = Some w → vals !! a = Some v →
             - 2 ^ (16 * w - 1) <= v < 2 ^ (16 * w - 1).
Proof.
  split.
  - intros [self Hs]. unfold new_block, _ALL_REGISTERS in Hs.
    destruct (bool_decide (dom vals ⊆ dom ALL)) eqn:Hd; [|discriminate Hs].
    apply bool_decide_eq_true in Hd. split; [exact Hd|].
    destruct (expand_all vals (keys ALL) ∅) as [m|] eqn:Hm; [|discriminate Hs].
    intros a w v Ha Hv.
    destruct (expand_all_Some vals (keys ALL) ∅ m a Hm) as [d Hd'].
    { apply elem_of_keys. exists w. exact Ha. }
    rewrite Hv in Hd'. exact (expand_Some_fits a w v d Ha Hd').
  - intros [Hdom Hfit].
    destruct (constructor_stores_values_aux vals start_time Hdom Hfit)
      as [self Hs].
    exists self. exact Hs.
Qed.

(** ** The words in the store *)

Section word_facts.

Lemma initial_slots_words_16_bit_ok :
  forallb (λ e : Z * Z, (0 <=? e.2) && (e.2 <? 65536))
          (map_to_list initial_slots) = true.
Proof. vm_compute. reflexivity. Qed.

Lemma pack_value_word_range value width words (i : nat) x :
  _pack_value value width = Some words → words !! i = Some x →
  0 <= x < 65536.
Proof.
  intros Hp Hi. destruct (pack_value_words _ _ _ Hp) as (_ & _ & ->).
  pose proof (words_of_bytes_range _
                (be_bytes_range (Z.to_nat (2 * width))
                                (value mod 2 ^ (16 * width)))) as HF.
  rewrite Forall_lookup in HF. exact (HF i x Hi).
Qed.

End word_facts.

(** [_step] is [_step_in_order] on the keys of the initial values. *)
Example step_in_order_keys now draws (self : A40HoldingRegistersDataBlock) :
  _step_in_order (keys _INITIAL_REGISTER_VALUES) now draws self
  = _step now draws self.
Proof. reflexivity. Qed.

(** X20.  The constructor and the ticks only ever put unsigned 16-bit
    numbers into the word slots of the store. *)
Theorem store_words_are_16_bit
    (start_time : Q) (ticks : list (Q * (Z → Z)))
    (b0 b : A40HoldingRegistersDataBlock) (k x : Z) :
  new_block _INITIAL_REGISTER_VALUES start_time = Some b0 →
  run ticks b0 = Some b →
  values b !! k = Some x →
  0 <= x < 65536.
Proof.
  intros H0 Hrun Hx. rewrite new_block_eq in H0. injection H0 as <-.
  destruct (run_inv _ _ _ (new_block_inv start_time) Hrun)
    as ([Hdom _] & _ & _ & Hticked & Hnil).
  destruct ticks as [|t ticks].
  - rewrite (Hnil eq_refl) in Hx. cbn [values] in Hx.
    pose proof (forallb_map_to_list _ _ _ _ initial_slots_words_16_bit_ok Hx)
      as E.
    cbn [snd] in E. apply andb_prop in E as [E1 E2]. lia.
  - assert (k ∈ dom initial_slots) as Hk.
    { rewrite <- Hdom. apply elem_of_dom. exists x. exact Hx. }
    destruct (initial_slots_covered k Hk) as (a & w & Ha & Hr).
    assert (t :: ticks ≠ []) as Hne by (intros E; inversion E).
    destruct (Hticked Hne a w Ha) as (v & _ & Hst).
    destruct (stored_lookup _ _ _ _ k Ha Hst Hr) as (words & Hp & Hl).
    rewrite Hx in Hl. symmetry in Hl.
    exact (pack_value_word_range _ _ _ _ _ Hp Hl).
Qed.

Lemma store_words_are_16_bit_witness :
  let b0 := Block initial_slots ∅ 0 in
  new_block _INITIAL_REGISTER_VALUES 0 = Some b0 ∧
  run [] b0 = Some b0 ∧
  values b0 !! 0xC561 = Some 10000 ∧
  0 <= 10000 < 65536.
Proof.
  intros b0.
  assert (new_block _INITIAL_REGISTER_VALUES 0 = Some b0) as H0
    by apply new_block_eq.
  assert (values b0 !! 0xC561 = Some 10000) as H2 by (vm_compute; reflexivity).
  split; [exact H0|]. split; [reflexivity|]. split; [exact H2|].
  exact (store_words_are_16_bit 0 [] b0 b0 0xC561 10000 H0 eq_refl H2).
Defined.
